(** * FlexiRoute dataset converters: network normalisation and
      time-dependent attribute synthesis

    A shallow embedding of [scripts/convert_california.py] and
    [scripts/convert_london.py].

    Conventions of the embedding:
    - Python [int] is [Z]; list indices and [rush_idx] (a counter that starts
      at 0 and is only incremented) are [nat].
    - Python [float] is idealised as an exact rational [Q]: no rounding, no
      NaN, no infinities.  Comparisons and arithmetic are the exact ones.
    - A [dict] is a [gmap], a [set] is a [gset]; [sorted] is [merge_sort]
      with the order Python uses on the keys.
    - An exception is a value of [Except]; the ambient generator of the
      [random] module is threaded explicitly as a state. *)

From Stdlib Require Import ZArith QArith Lia Lqa.
From stdpp Require Import gmap list sorting.
From Equations Require Import Equations.

Local Open Scope Z_scope.

(** ** Time grid *)

Module TimeGrid.

(** [RUSH_HOURS]: the two rush windows, in minutes from midnight. *)
Definition RUSH_HOURS : list (Z * Z) :=
  [ (7 * 60 + 30, 9 * 60 + 30); (16 * 60, 18 * 60 + 30) ].

(** The inner loop of [generate_time_series]:
    [while time <= end: series.append(time); time += 30]. *)
Equations? while_append (end_ time : Z) (series : list Z) : list Z
  by wf (Z.to_nat (end_ + 1 - time)) lt :=
  while_append end_ time series with Z_le_dec time end_ => {
    | left _ := while_append end_ (time + 30) (series ++ [time]);
    | right _ := series }.
Proof. lia. Qed.

(** [generate_time_series], with the window table as an argument. *)
Definition generate_time_series_of (windows : list (Z * Z)) : list Z :=
  foldl (λ series w, while_append w.2 w.1 series) [0] windows.

Definition generate_time_series : list Z := generate_time_series_of RUSH_HOURS.

Definition ARRIVAL_SERIES : list Z := generate_time_series.
Definition WIDTH_SERIES : list Z := [0].

End TimeGrid.

(** ** Records shared by both converters *)

(** [EdgeRecord]: a directed edge with its length. *)
Record EdgeRecord := mkEdge { src : Z; dst : Z; distance : Q }.

(** The dictionary key [(e.src, e.dst)]. *)
Definition edge_key (e : EdgeRecord) : Z * Z := (src e, dst e).

Global Instance EdgeRecord_inhabited : Inhabited EdgeRecord :=
  populate (mkEdge 0 0 0%Q).

(** Python's [<] on two numbers, as a boolean. *)
Definition Qltb (x y : Q) : bool :=
  (Qnum x * QDen y <? Qnum y * QDen x)%Z.

(** Python's order on pairs of integers: lexicographic. *)
Definition key_le (a b : Z * Z) : Prop :=
  a.1 < b.1 ∨ (a.1 = b.1 ∧ a.2 ≤ b.2).
Definition key_lt (a b : Z * Z) : Prop :=
  a.1 < b.1 ∨ (a.1 = b.1 ∧ a.2 < b.2).

Global Instance key_le_dec a b : Decision (key_le a b).
Proof. unfold key_le. apply _. Defined.

(** ** Deduplication ([dedupe_edges], identical in both converters) *)

Module Dedupe.

(** One iteration of the loop over [edges]:
    [if key not in dedup or e.distance < dedup[key].distance: dedup[key] = e]. *)
Definition dedupe_step (dedup : gmap (Z * Z) EdgeRecord) (e : EdgeRecord)
  : gmap (Z * Z) EdgeRecord :=
  let key := edge_key e in
  match dedup !! key with
  | None => <[key := e]> dedup
  | Some old =>
      if Qltb (distance e) (distance old) then <[key := e]> dedup else dedup
  end.

(** The dictionary after the loop. *)
Definition dedupe_dict (edges : list EdgeRecord) : gmap (Z * Z) EdgeRecord :=
  foldl dedupe_step ∅ edges.

(** [sorted(dedup.keys())]. *)
Definition sorted_keys (dedup : gmap (Z * Z) EdgeRecord) : list (Z * Z) :=
  merge_sort key_le (map_to_list dedup).*1.

(** [return [dedup[k] for k in sorted(dedup.keys())]].  The subscript
    [dedup[k]] is a total lookup: [k] ranges over the keys of [dedup]
    (lemma [sorted_keys_lookup]). *)
Definition dedupe_edges (edges : list EdgeRecord) : list EdgeRecord :=
  let dedup := dedupe_dict edges in
  (λ k, dedup !!! k) <$> sorted_keys dedup.

(** The member a group is represented by, in words: the element [e] of
    [edges] with key [k] such that every earlier element of the group is
    strictly longer and every later one is at least as long. *)
Definition first_shortest (edges : list EdgeRecord) (k : Z * Z)
    (e : EdgeRecord) : Prop :=
  ∃ before after,
    edges = before ++ e :: after ∧ edge_key e = k ∧
    (∀ x, x ∈ before → edge_key x = k → (distance e < distance x)%Q) ∧
    (∀ x, x ∈ after → edge_key x = k → (distance e <= distance x)%Q).

End Dedupe.

(** ** Exceptions *)

Inductive PyError := ValueError | KeyError | IndexError | ZeroDivisionError.

Inductive Except (A : Type) : Type :=
| Ok (a : A)
| Raise (err : PyError).
Arguments Ok {A} a.
Arguments Raise {A} err.

Global Instance Except_ret : MRet Except := λ A a, Ok a.
Global Instance Except_bind : MBind Except := λ A B f m,
  match m with Ok a => f a | Raise err => Raise err end.

(** [d[k]] on a dictionary: [KeyError] when the key is absent. *)
Definition dict_get `{Countable K} {V} (d : gmap K V) (k : K) : Except V :=
  match d !! k with Some v => Ok v | None => Raise KeyError end.

(** [l[i]] on a list: [IndexError] when out of range. *)
Definition list_get {A} (l : list A) (i : nat) : Except A :=
  match l !! i with Some v => Ok v | None => Raise IndexError end.

(** [x / y] on floats: [ZeroDivisionError] when the divisor is zero. *)
Definition float_div (x y : Q) : Except Q :=
  if Qeq_bool y 0 then Raise ZeroDivisionError else Ok (x / y)%Q.

(** A loop [for x in l: acc = body(acc, x)] whose body may raise. *)
Fixpoint for_each {A S} (body : S → A → Except S) (l : list A) (acc : S)
  : Except S :=
  match l with
  | [] => Ok acc
  | x :: rest => acc' ← body acc x; for_each body rest acc'
  end.

(** ** The [random] module

    The generator is an interface: [random.seed(n)] installs a state that
    depends on [n] alone, [random.random()] and the internal [_randbelow(n)]
    advance the state.  [uniform] and [shuffle] are written from them as the
    standard library does. *)

Class PyRandom (G : Type) := {
  rng_seed : Z → G;
  rng_random : G → Q * G;
  rng_randbelow : Z → G → Z * G
}.

(** [random()] lies in [0, 1) and [_randbelow(n)] in [0, n). *)
Class PyRandomLaws (G : Type) `{PyRandom G} := {
  rng_random_range : ∀ g, (0 <= (rng_random g).1)%Q ∧ ((rng_random g).1 < 1)%Q;
  rng_randbelow_range : ∀ n g, 0 < n → 0 ≤ (rng_randbelow n g).1 < n
}.

(** Code that uses the ambient generator and may raise. *)
Definition Rand (G A : Type) : Type := G → Except (A * G).

Global Instance Rand_ret {G} : MRet (Rand G) := λ A a g, Ok (a, g).
Global Instance Rand_bind {G} : MBind (Rand G) := λ A B f m g,
  match m g with Ok (a, g') => f a g' | Raise err => Raise err end.

Definition lift_except {G A} (m : Except A) : Rand G A := λ g,
  match m with Ok a => Ok (a, g) | Raise err => Raise err end.

Section random_module.
Context {G : Type} `{PyRandom G}.

(** [random.seed(n)]: the previous state is discarded. *)
Definition seed (n : Z) : Rand G unit := λ _, Ok (tt, rng_seed n).

(** [random.uniform(a, b)] is [a + (b - a) * random()]. *)
Definition uniform (a b : Q) : Rand G Q := λ g,
  let (u, g') := rng_random g in Ok ((a + (b - a) * u)%Q, g').

(** [x[i], x[j] = x[j], x[i]]. *)
Definition swap {A} (x : list A) (i j : nat) : Except (list A) :=
  xj ← list_get x j; xi ← list_get x i;
  mret (<[j := xi]> (<[i := xj]> x)).

(** [random.shuffle(x)]:
    [for i in reversed(range(1, len(x))): j = randbelow(i + 1); swap]. *)
Fixpoint shuffle_loop {A} (indices : list nat) (x : list A) : Rand G (list A) :=
  match indices with
  | [] => mret x
  | i :: rest => λ g,
      let (j, g') := rng_randbelow (Z.of_nat i + 1) g in
      (x' ← lift_except (swap x i (Z.to_nat j)); shuffle_loop rest x') g'
  end.

Definition shuffle {A} (x : list A) : Rand G (list A) :=
  shuffle_loop (reverse (seq 1 (length x - 1))) x.

(** A loop over a list whose body uses the generator. *)
Fixpoint for_each_rand {A B} (body : A → Rand G B) (l : list A)
  : Rand G (list B) :=
  match l with
  | [] => mret []
  | x :: rest => y ← body x; ys ← for_each_rand body rest; mret (y :: ys)
  end.
End random_module.

(** ** Attribute synthesis: the parts both [write_edges] share *)

(** The defaults of the command line options. *)
Definition DEFAULT_BASE_WIDTH : Q := 35 # 10.
Definition DEFAULT_RUSH_WIDTH : Q := 25 # 10.
Definition CLEARWAY_RUSH_WIDTH : Q := 45 # 10.
Definition CLEARWAY_PERCENTAGE : Z := 5.
Definition DENSITY : Z := 20.
Definition DEFAULT_SPEED : Q := 100.

(** One line of the edge file after the two header lines, before its
    values are formatted: [src dst travel_costs baseWidth rushWidth distance]. *)
Record EdgeLine := mkLine {
  line_src : Z;
  line_dst : Z;
  line_costs : list Q;
  line_base_width : Q;
  line_rush_width : Q;
  line_distance : Q
}.

(** The content of the edge file. *)
Record EdgesFile := mkFile {
  arrival_line : list Z;
  width_line : list Z;
  edge_lines : list EdgeLine
}.

(** One line of the node file, before its values are formatted:
    [id lat lon clusterId]. *)
Record NodeLine := mkNodeLine {
  out_id : Z;
  out_lat : Q;
  out_lon : Q;
  out_cluster : Z
}.

Module Synthesis.
Import TimeGrid.

(** The state of the scan over the arrival series. *)
Record RushState := mkRush { inside_rush : bool; rush_idx : nat }.

(** [[1 if i < len(edges) * pct // 100 else 0 for i in range(len(edges))]]. *)
Definition percent_flags (n : nat) (pct : Z) : list Z :=
  (λ i : nat, if Z.of_nat i <? Z.of_nat n * pct / 100 then 1 else 0) <$> seq 0 n.

(** The widths of one edge, from the truth value of [is_clearway[idx]]. *)
Definition edge_widths (clearway_flag : Z) (base_width clearway_width : Q)
  : Q * Q :=
  if clearway_flag =? 0 then (base_width, base_width)
  else (base_width, clearway_width).

Section with_generator.
Context {G : Type} `{PyRandom G}.

(** The multiplier of a position within the rush window. *)
Definition rush_multiplier (position : Z) : Rand G Q :=
  if (position =? 0) || (position =? 4) then uniform (10 # 100) (15 # 100)
  else if (position =? 1) || (position =? 3) then uniform (20 # 100) (25 # 100)
  else if position =? 2 then uniform (30 # 100) (40 # 100)
  else mret 0%Q.

(** The body of [for time in ARRIVAL_SERIES] after the transition:
    [temp_cost], from the state the transition left. *)
Definition cost_at (base_cost : Q) (st : RushState) (time : Z) : Rand G Q :=
  if inside_rush st then
    w ← lift_except (list_get RUSH_HOURS (rush_idx st));
    let difference := time - w.1 in
    let position := difference / 30 in
    multiplier ← rush_multiplier position;
    mret (base_cost + base_cost * multiplier)%Q
  else mret base_cost.

(** [for time in ARRIVAL_SERIES: ...; travel_costs.append(temp_cost)],
    with the transition of the converter as an argument. *)
Fixpoint cost_loop (transition : RushState → Z → RushState) (base_cost : Q)
    (times : list Z) (st : RushState) (travel_costs : list Q)
  : Rand G (list Q) :=
  match times with
  | [] => mret travel_costs
  | time :: rest =>
      let st' := transition st time in
      temp_cost ← cost_at base_cost st' time;
      cost_loop transition base_cost rest st' (travel_costs ++ [temp_cost])
  end.

Definition travel_costs_of (transition : RushState → Z → RushState)
    (base_cost : Q) : Rand G (list Q) :=
  cost_loop transition base_cost ARRIVAL_SERIES (mkRush false 0) [].

(** The rest of the loop body over the edges, once [base_cost] is known. *)
Definition edge_line (transition : RushState → Z → RushState)
    (is_clearway : list Z) (base_width clearway_width : Q)
    (idx : nat) (e : EdgeRecord) (base_cost : Q) : Rand G EdgeLine :=
  travel_costs ← travel_costs_of transition base_cost;
  flag ← lift_except (list_get is_clearway idx);
  let widths := edge_widths flag base_width clearway_width in
  mret (mkLine (src e) (dst e) travel_costs widths.1 widths.2 (distance e)).

(** [write_edges] up to the per-edge base cost, which differs between
    the converters. *)
Definition write_edges_with (transition : RushState → Z → RushState)
    (base_cost_of : EdgeRecord → Rand G Q)
    (edges : list EdgeRecord) (base_width clearway_width : Q)
    (density clearway_pct : Z) : Rand G EdgesFile :=
  seed 42;;
  scores ← shuffle (percent_flags (length edges) density);
  seed 123;;
  is_clearway ← shuffle (percent_flags (length edges) clearway_pct);
  lines ← for_each_rand (λ ie : nat * EdgeRecord,
             base_cost ← base_cost_of ie.2;
             edge_line transition is_clearway base_width clearway_width
               ie.1 ie.2 base_cost)
           (imap pair edges);
  mret (mkFile ARRIVAL_SERIES WIDTH_SERIES lines).
End with_generator.

(** The scan of the state alone, one state per arrival point. *)
Fixpoint rush_states (transition : RushState → Z → RushState)
    (times : list Z) (st : RushState) : list RushState :=
  match times with
  | [] => []
  | time :: rest =>
      let st' := transition st time in st' :: rush_states transition rest st'
  end.
End Synthesis.

(** ** convert_california.py *)

Module California.
Import TimeGrid Synthesis.

Record NodeRecord := mkNode { node_id : Z; lat : Q; lon : Q }.

(** The rush transition: leave the window when [time == end]. *)
Definition transition (st : RushState) (time : Z) : RushState :=
  match RUSH_HOURS !! rush_idx st with
  | Some (start, end_) =>
      if time =? start then mkRush true (rush_idx st)
      else if time =? end_ then mkRush false (rush_idx st + 1)
      else st
  | None => st
  end.

Section with_generator.
Context {G : Type} `{PyRandom G}.

(** A speed between 20 and 25 mph, in km per minute, and the base cost. *)
Definition base_cost_of (e : EdgeRecord) : Rand G Q :=
  speed_mph ← uniform 20 25;
  let speed_km_per_hr := (speed_mph * (160934 # 100000))%Q in
  let speed_km_per_min := (speed_km_per_hr / 60)%Q in
  lift_except (float_div (distance e) speed_km_per_min).

Definition write_edges (edges : list EdgeRecord)
    (base_width rush_width clearway_width : Q) (density clearway_pct : Z)
  : Rand G EdgesFile :=
  write_edges_with transition base_cost_of edges base_width clearway_width
    density clearway_pct.
End with_generator.

(** [max(node_ids)]: [ValueError] on the empty set. *)
Definition set_max (s : gset Z) : Except Z :=
  match elements s with
  | [] => Raise ValueError
  | x :: rest => Ok (foldl Z.max x rest)
  end.

Definition ensure_ids_contiguous (nodes : list NodeRecord)
    (edges : list EdgeRecord) : Except unit :=
  let node_ids : gset Z := list_to_set (node_id <$> nodes) in
  top ← set_max node_ids;
  let missing := filter (λ i, i ∉ node_ids) (seqZ 0 (top + 1)) in
  if bool_decide (missing = []) then
    let edge_ids : gset Z :=
      list_to_set (src <$> edges) ∪ list_to_set (dst <$> edges) in
    let unknown := edge_ids ∖ node_ids in
    if bool_decide (unknown = ∅) then Ok tt else Raise ValueError
  else Raise ValueError.

(** [sorted(nodes, key=lambda x: x.node_id)]: the stable sort by id, a node
    going behind the nodes of the same id that came before it. *)
Fixpoint insert_by_id (n : NodeRecord) (l : list NodeRecord) : list NodeRecord :=
  match l with
  | [] => [n]
  | m :: rest =>
      if decide (node_id n < node_id m) then n :: m :: rest
      else m :: insert_by_id n rest
  end.

Definition sorted_by_id (nodes : list NodeRecord) : list NodeRecord :=
  foldl (λ acc n, insert_by_id n acc) [] nodes.

(** [write_nodes]: the lines [id lat lon 1], by ascending id. *)
Definition write_nodes (nodes : list NodeRecord) : list NodeLine :=
  (λ n, mkNodeLine (node_id n) (lat n) (lon n) 1) <$> sorted_by_id nodes.

(** The loaders read a line through [line.strip()] and [line.split()]; a
    line is given here by the fields [split] returns, none for a blank
    line.  [int] and [float] on a field are arguments. *)
Section loaders.
Context {Field : Type} (to_int : Field → Except Z) (to_float : Field → Except Q).

(** One line of [load_nodes]: [id lon lat], further fields ignored. *)
Definition load_node_line (nodes : list NodeRecord) (parts : list Field)
  : Except (list NodeRecord) :=
  match parts with
  | [] => Ok nodes
  | _ =>
      if (length parts <? 3)%nat then Raise ValueError
      else
        f0 ← list_get parts 0; f1 ← list_get parts 1; f2 ← list_get parts 2;
        node_id ← to_int f0;
        lon ← to_float f1;
        lat ← to_float f2;
        Ok (nodes ++ [mkNode node_id lat lon])
  end.

Definition load_nodes (lines : list (list Field)) : Except (list NodeRecord) :=
  for_each load_node_line lines [].

(** One line of [load_edges]: [edge_id src dst distance]. *)
Definition load_edge_line (edges : list EdgeRecord) (parts : list Field)
  : Except (list EdgeRecord) :=
  match parts with
  | [] => Ok edges
  | _ =>
      if (length parts <? 4)%nat then Raise ValueError
      else
        f1 ← list_get parts 1; f2 ← list_get parts 2; f3 ← list_get parts 3;
        src ← to_int f1;
        dst ← to_int f2;
        distance ← to_float f3;
        Ok (edges ++ [mkEdge src dst distance])
  end.

Definition load_edges (lines : list (list Field)) : Except (list EdgeRecord) :=
  for_each load_edge_line lines [].
End loaders.

(** [main] from the loaded lists to the content of the two files:
    the check, the deduplication, [vertex_count], the two writers. *)
Definition convert {G} `{PyRandom G} (nodes : list NodeRecord)
    (edges : list EdgeRecord) (base_width rush_width clearway_width : Q)
    (density clearway_pct : Z) : Rand G (nat * list NodeLine * EdgesFile) :=
  lift_except (ensure_ids_contiguous nodes edges);;
  let edges := Dedupe.dedupe_edges edges in
  let vertex_count := length nodes in
  let nodes_out := write_nodes nodes in
  edges_out ← write_edges edges base_width rush_width clearway_width
                 density clearway_pct;
  mret (vertex_count, nodes_out, edges_out).
End California.

(** ** convert_london.py *)

Module London.
Import TimeGrid Synthesis.

Record NodeRecord := mkNode {
  node_id : Z; x : Q; y : Q; lat : Q; lon : Q
}.

(** The rush transition: leave the window when [time >= end], and only
    when inside. *)
Definition transition (st : RushState) (time : Z) : RushState :=
  match RUSH_HOURS !! rush_idx st with
  | Some (start, end_) =>
      if time =? start then mkRush true (rush_idx st)
      else if end_ <=? time then
        if inside_rush st then mkRush false (rush_idx st + 1) else st
      else st
  | None => st
  end.

Section with_generator.
Context {G : Type} `{PyRandom G}.

(** 80 to 120 percent of the configured speed, and the base cost. *)
Definition base_cost_of (speed : Q) (e : EdgeRecord) : Rand G Q :=
  speed_multiplier ← uniform (8 # 10) (12 # 10);
  let edge_speed := (speed * speed_multiplier)%Q in
  lift_except (float_div (distance e) edge_speed).

Definition write_edges (edges : list EdgeRecord)
    (base_width rush_width clearway_width : Q) (density clearway_pct : Z)
    (speed : Q) : Rand G EdgesFile :=
  write_edges_with transition (base_cost_of speed) edges base_width
    clearway_width density clearway_pct.
End with_generator.

(** [{e.src for e in edges} | {e.dst for e in edges}]. *)
Definition used_ids_of (edges : list EdgeRecord) : gset Z :=
  list_to_set (src <$> edges) ∪ list_to_set (dst <$> edges).

(** [sorted(used_ids)]. *)
Definition sorted_ids (used_ids : gset Z) : list Z :=
  merge_sort Z.le (elements used_ids).

(** [{old_id: new_id for new_id, old_id in enumerate(sorted(used_ids))}]. *)
Definition old_to_new_of (used_ids : gset Z) : gmap Z Z :=
  foldl (λ d p, <[p.2 := Z.of_nat p.1]> d) ∅ (imap pair (sorted_ids used_ids)).

Definition renumber_nodes_contiguous (nodes : gmap Z NodeRecord)
    (edges : list EdgeRecord)
  : Except (gmap Z NodeRecord * list EdgeRecord) :=
  let used_ids := used_ids_of edges in
  let old_to_new := old_to_new_of used_ids in
  new_nodes ←
    for_each (λ new_nodes (item : Z * NodeRecord),
        let (old_id, node) := item in
        if bool_decide (old_id ∈ used_ids) then
          new_id ← dict_get old_to_new old_id;
          Ok (<[new_id := mkNode new_id (x node) (y node) (lat node) (lon node)]>
                new_nodes)
        else Ok new_nodes)
      (map_to_list nodes) ∅;
  new_edges ←
    for_each (λ new_edges e,
        s ← dict_get old_to_new (src e);
        d ← dict_get old_to_new (dst e);
        Ok (new_edges ++ [mkEdge s d (distance e)]))
      edges [];
  Ok (new_nodes, new_edges).

(** The columns of a row of the edge list that the loader reads, as the csv
    reader delivers them. *)
Record CsvRow (Field : Type) := mkRow {
  XCoord : Field;
  YCoord : Field;
  START_NODE : Field;
  END_NODE : Field;
  LENGTH : Field
}.
Arguments mkRow {Field}.
Arguments XCoord {Field}.
Arguments YCoord {Field}.
Arguments START_NODE {Field}.
Arguments END_NODE {Field}.
Arguments LENGTH {Field}.

(** [load_london_edges], with [int], [float] and the projection
    [bng_to_wgs84] as arguments. *)
Section loader.
Context {Field : Type} (to_int : Field → Except Z) (to_float : Field → Except Q)
  (bng_to_wgs84 : Q → Q → Q * Q).

(** The body of the first loop: both endpoints get a record with the
    coordinates of the row unless they have one; the edge is appended. *)
Definition first_pass_row (acc : gmap Z NodeRecord * list EdgeRecord)
    (row : CsvRow Field) : Except (gmap Z NodeRecord * list EdgeRecord) :=
  x ← to_float (XCoord row);
  y ← to_float (YCoord row);
  src ← to_int (START_NODE row);
  dst ← to_int (END_NODE row);
  distance ← to_float (LENGTH row);
  let latlon := bng_to_wgs84 x y in
  let nodes := acc.1 in
  let nodes :=
    if bool_decide (src ∉ dom nodes)
    then <[src := mkNode src x y latlon.1 latlon.2]> nodes else nodes in
  let nodes :=
    if bool_decide (dst ∉ dom nodes)
    then <[dst := mkNode dst x y latlon.1 latlon.2]> nodes else nodes in
  Ok (nodes, acc.2 ++ [mkEdge src dst distance]).

(** The body of the second loop: the source of the row takes the
    coordinates of the row. *)
Definition second_pass_row (nodes : gmap Z NodeRecord) (row : CsvRow Field)
  : Except (gmap Z NodeRecord) :=
  x ← to_float (XCoord row);
  y ← to_float (YCoord row);
  src ← to_int (START_NODE row);
  let latlon := bng_to_wgs84 x y in
  if bool_decide (src ∈ dom nodes)
  then Ok (<[src := mkNode src x y latlon.1 latlon.2]> nodes)
  else Ok nodes.

Definition load_london_edges (rows : list (CsvRow Field))
  : Except (gmap Z NodeRecord * list EdgeRecord) :=
  acc ← for_each first_pass_row rows (∅, []);
  nodes ← for_each second_pass_row rows acc.1;
  Ok (nodes, acc.2).
End loader.

(** [write_nodes]: for each key in ascending order, the line
    [id lat lon 1] of its record. *)
Definition write_nodes (nodes : gmap Z NodeRecord) : Except (list NodeLine) :=
  for_each (λ lines node_id,
      n ← dict_get nodes node_id;
      Ok (lines ++ [mkNodeLine (London.node_id n) (lat n) (lon n) 1]))
    (merge_sort Z.le (map_to_list nodes).*1) [].

(** [main] from the loaded graph to the content of the two files:
    the deduplication, the renumbering, [vertex_count], the two writers. *)
Definition convert {G} `{PyRandom G} (nodes : gmap Z NodeRecord)
    (edges : list EdgeRecord) (base_width rush_width clearway_width : Q)
    (density clearway_pct : Z) (speed : Q)
  : Rand G (nat * list NodeLine * EdgesFile) :=
  let edges := Dedupe.dedupe_edges edges in
  renumbered ← lift_except (renumber_nodes_contiguous nodes edges);
  let nodes := renumbered.1 in
  let edges := renumbered.2 in
  let vertex_count := size nodes in
  nodes_out ← lift_except (write_nodes nodes);
  edges_out ← write_edges edges base_width rush_width clearway_width
                 density clearway_pct speed;
  mret (vertex_count, nodes_out, edges_out).
End London.

(** ** A concrete generator

    A linear congruential generator, used to run the converters on concrete
    inputs.  It satisfies [PyRandomLaws]. *)

Module Lcg.
Definition modulus : Z := 2147483648.
Definition step (s : Z) : Z := (s * 1103515245 + 12345) mod modulus.

Global Instance generator : PyRandom Z := {|
  rng_seed n := n mod modulus;
  rng_random s := let s' := step s in (Qmake s' 2147483648, s');
  rng_randbelow n s := let s' := step s in (s' mod n, s')
|}.
End Lcg.

(** ** Specification-side definitions *)

(** The points of one window in the words of the specification: the
    minutes [t] of [start .. end] that are [start] plus a multiple of 30. *)
Definition window_points (w : Z * Z) : list Z :=
  filter (λ t, (t - w.1) mod 30 = 0) (seqZ w.1 (w.2 - w.1 + 1)).

(** The grid in the words of the specification. *)
Definition grid_of_windows (windows : list (Z * Z)) : list Z :=
  [0] ++ concat (window_points <$> windows).

(** The validation in the words of the specification: the node list is
    not empty, the set of raw ids is exactly [{0, ..., N-1}] with [N] its
    number of elements, and every edge endpoint is one of the ids. *)
Definition ids_contiguous (ids : gset Z) : Prop :=
  ids = list_to_set (seqZ 0 (Z.of_nat (size ids))).

Definition endpoints_known (ids : gset Z) (edges : list EdgeRecord) : Prop :=
  ∀ e, e ∈ edges → src e ∈ ids ∧ dst e ∈ ids.

Definition graph_valid (nodes : list California.NodeRecord)
    (edges : list EdgeRecord) : Prop :=
  let ids : gset Z := list_to_set (California.node_id <$> nodes) in
  nodes ≠ [] ∧ ids_contiguous ids ∧ endpoints_known ids edges.

(** The rush window a minute belongs to, the end excluded: the scan leaves
    the window at its end point. *)
Definition active_window (time : Z) : option (Z * Z) :=
  List.find (λ w : Z * Z, (w.1 <=? time) && (time <? w.2)) TimeGrid.RUSH_HOURS.

(** The rush window a minute belongs to when the end point is counted in. *)
Definition closed_window (time : Z) : option (Z * Z) :=
  List.find (λ w : Z * Z, (w.1 <=? time) && (time <=? w.2)) TimeGrid.RUSH_HOURS.

(** The range the multiplier of a position is drawn from. *)
Definition multiplier_range (position : Z) : option (Q * Q) :=
  if (position =? 0) || (position =? 4) then Some (10 # 100, 15 # 100)%Q
  else if (position =? 1) || (position =? 3) then Some (20 # 100, 25 # 100)%Q
  else if position =? 2 then Some (30 # 100, 40 # 100)%Q
  else None.

(** [c] is [base_cost] raised by a multiplier of the range of [position],
    or by nothing when the position has no range. *)
Definition raised_cost (base_cost : Q) (position : Z) (c : Q) : Prop :=
  match multiplier_range position with
  | Some (lo, hi) =>
      ∃ m : Q, (lo <= m)%Q ∧ (m <= hi)%Q ∧ c = (base_cost + base_cost * m)%Q
  | None => c = (base_cost + base_cost * 0)%Q
  end.

(** The cost of an arrival point: raised inside a window, by the position
    [(time - start) // 30]; the base cost outside. *)
Definition point_cost (base_cost : Q) (time : Z) (c : Q) : Prop :=
  match active_window time with
  | Some w => raised_cost base_cost ((time - w.1) / 30) c
  | None => c = base_cost
  end.

(** The cost of a point in the state the scan is in after its transition. *)
Definition state_cost (base_cost : Q) (st : Synthesis.RushState) (time : Z)
    (c : Q) : Prop :=
  if Synthesis.inside_rush st then
    match TimeGrid.RUSH_HOURS !! Synthesis.rush_idx st with
    | Some w => raised_cost base_cost ((time - w.1) / 30) c
    | None => False
    end
  else c = base_cost.

(** The clearway classification: the block of [write_edges] that reseeds
    with 123 and shuffles the flags. *)
Definition clearway_flags {G} `{PyRandom G} (n : nat) (clearway_pct : Z)
  : Rand G (list Z) :=
  seed 123;; shuffle (Synthesis.percent_flags n clearway_pct).

(** The cost floor of a written file: every line has one cost per arrival
    point, priced in the order of the points, and none below the base cost
    computed for its edge. *)
Definition cost_floor_holds {G} `{PyRandom G}
    (base_cost_of : EdgeRecord → Rand G Q) (edges : list EdgeRecord)
    (file : EdgesFile) : Prop :=
  arrival_line file = TimeGrid.ARRIVAL_SERIES ∧
  length (edge_lines file) = length edges ∧
  ∀ idx e line, edges !! idx = Some e → edge_lines file !! idx = Some line →
    ∃ ga base_cost gb,
      base_cost_of e ga = Ok (base_cost, gb) ∧
      length (line_costs line) = length (arrival_line file) ∧
      Forall2 (point_cost base_cost) (arrival_line file) (line_costs line) ∧
      Forall (λ c, (base_cost <= c)%Q) (line_costs line).

(** The rush pricing of a written file: every line is priced point by
    point from the base cost computed for its edge. *)
Definition rush_pricing_holds {G} `{PyRandom G}
    (base_cost_of : EdgeRecord → Rand G Q) (edges : list EdgeRecord)
    (file : EdgesFile) : Prop :=
  ∀ idx e line, edges !! idx = Some e → edge_lines file !! idx = Some line →
    ∃ ga base_cost gb,
      base_cost_of e ga = Ok (base_cost, gb) ∧
      Forall2 (point_cost base_cost) TimeGrid.ARRIVAL_SERIES (line_costs line).

(** Windows in chronological order after minute [after]: each one starts
    after the one before it has ended and ends no earlier than it starts. *)
Fixpoint windows_ordered (after : Z) (windows : list (Z * Z)) : Prop :=
  match windows with
  | [] => True
  | w :: rest => after < w.1 ∧ w.1 ≤ w.2 ∧ windows_ordered w.2 rest
  end.

(** The number of edges a percentage selects among [n]: the integer part of
    [n * pct / 100], at least none and at most all. *)
Definition percent_count (n : nat) (pct : Z) : nat :=
  Z.to_nat (Z.min (Z.of_nat n) (Z.max 0 (Z.of_nat n * pct / 100))).

(** The values of a row of the London edge list, once converted. *)
Record RowValues := mkValues {
  val_x : Q;
  val_y : Q;
  val_src : Z;
  val_dst : Z;
  val_length : Q
}.

(** The conversions of a row succeed and give these values. *)
Definition row_reads {Field} (to_int : Field → Except Z)
    (to_float : Field → Except Q) (row : London.CsvRow Field) (v : RowValues)
  : Prop :=
  to_float (London.XCoord row) = Ok (val_x v) ∧
  to_float (London.YCoord row) = Ok (val_y v) ∧
  to_int (London.START_NODE row) = Ok (val_src v) ∧
  to_int (London.END_NODE row) = Ok (val_dst v) ∧
  to_float (London.LENGTH row) = Ok (val_length v).

(** The edge of a converted row. *)
Definition row_edge (v : RowValues) : EdgeRecord :=
  mkEdge (val_src v) (val_dst v) (val_length v).

(** The node record the loader makes for id [k] from a converted row. *)
Definition row_node (bng_to_wgs84 : Q → Q → Q * Q) (k : Z) (v : RowValues)
  : London.NodeRecord :=
  London.mkNode k (val_x v) (val_y v)
    (bng_to_wgs84 (val_x v) (val_y v)).1 (bng_to_wgs84 (val_x v) (val_y v)).2.

(** A line of the California node file reads as a record: it has at least
    three fields, the id, the longitude and the latitude, in this order. *)
Definition node_line_reads {Field} (to_int : Field → Except Z)
    (to_float : Field → Except Q) (parts : list Field)
    (n : California.NodeRecord) : Prop :=
  ∃ f0 f1 f2 rest,
    parts = f0 :: f1 :: f2 :: rest ∧
    to_int f0 = Ok (California.node_id n) ∧
    to_float f1 = Ok (California.lon n) ∧
    to_float f2 = Ok (California.lat n).

(** A line of the California edge file reads as an edge: it has at least
    four fields, of which the second to fourth are the source, the
    destination and the distance. *)
Definition edge_line_reads {Field} (to_int : Field → Except Z)
    (to_float : Field → Except Q) (parts : list Field) (e : EdgeRecord) : Prop :=
  ∃ f0 f1 f2 f3 rest,
    parts = f0 :: f1 :: f2 :: f3 :: rest ∧
    to_int f1 = Ok (src e) ∧
    to_int f2 = Ok (dst e) ∧
    to_float f3 = Ok (distance e).

(** * Properties *)

(** ** Time grid *)

Section time_grid.
Import TimeGrid.

Lemma filter_none {A} (P : A → Prop) `{∀ a, Decision (P a)} (l : list A) :
  Forall (λ a, ¬ P a) l → filter P l = [].
Proof.
  induction 1 as [|a l Ha _ IH]; [done|]. by rewrite filter_cons_False.
Qed.

Lemma filter_off_grid (time k : Z) :
  0 ≤ k ≤ 29 →
  filter (λ t, (t - time) mod 30 = 0) (seqZ (time + 1) k) = [].
Proof.
  intros Hk. apply filter_none, Forall_forall.
  intros t Ht. apply list_elem_of_lookup in Ht as [i Hi].
  apply lookup_seqZ in Hi as [-> Hi].
  replace (time + 1 + Z.of_nat i - time) with (Z.of_nat i + 1) by lia.
  rewrite Z.mod_small by lia. lia.
Qed.

Lemma filter_shift_grid (time : Z) (l : list Z) :
  filter (λ t, (t - time) mod 30 = 0) l =
  filter (λ t, (t - (time + 30)) mod 30 = 0) l.
Proof.
  apply list_filter_iff. intros t.
  replace (t - time) with (t - (time + 30) + 1 * 30) by lia.
  by rewrite Z.mod_add.
Qed.

Lemma window_points_unfold (start end_ : Z) :
  start ≤ end_ →
  window_points (start, end_) = start :: window_points (start + 30, end_).
Proof.
  intros Hle. unfold window_points. simpl.
  rewrite seqZ_cons by lia. rewrite filter_cons_True by (by rewrite Z.sub_diag).
  f_equal. replace (Z.succ start) with (start + 1) by lia.
  destruct (decide (end_ - start + 1 < 30)) as [Hshort|Hlong].
  - rewrite filter_off_grid by lia. by rewrite seqZ_nil by lia.
  - replace (Z.pred (end_ - start + 1)) with (29 + (end_ - (start + 30) + 1)) by lia.
    rewrite seqZ_app by lia. rewrite filter_app, filter_off_grid by lia.
    simpl. replace (start + 1 + 29) with (start + 30) by lia.
    apply filter_shift_grid.
Qed.

Lemma window_points_empty (start end_ : Z) :
  end_ < start → window_points (start, end_) = [].
Proof. intros Hlt. unfold window_points. simpl. by rewrite seqZ_nil by lia. Qed.

(** The loop appends exactly the points of the window. *)
Lemma while_append_points (end_ time : Z) (series : list Z) :
  while_append end_ time series = series ++ window_points (time, end_).
Proof.
  funelim (while_append end_ time series).
  - rewrite H. rewrite (window_points_unfold time end_) by lia.
    by rewrite <- app_assoc.
  - rewrite window_points_empty by lia. by rewrite app_nil_r.
Qed.

(** For every table of windows the builder returns the grid of the
    specification. *)
Lemma generate_time_series_of_windows (windows : list (Z * Z)) :
  generate_time_series_of windows = grid_of_windows windows.
Proof.
  unfold generate_time_series_of, grid_of_windows.
  generalize [0]. induction windows as [|[start end_] ws IH]; intros acc; simpl.
  - by rewrite app_nil_r.
  - rewrite IH, while_append_points. by rewrite <- app_assoc.
Qed.

(** C2: with the default windows the grid starts at 0, is strictly
    increasing, has exactly 12 elements, ends at 1110, and is [0] followed
    by the points [start, start + 30, ...] up to [end] of each window in
    order. *)
Theorem time_grid_default :
  RUSH_HOURS = [(450, 570); (960, 1110)] ∧
  head generate_time_series = Some 0 ∧
  StronglySorted Z.lt generate_time_series ∧
  length generate_time_series = 12%nat ∧
  last generate_time_series = Some 1110 ∧
  generate_time_series = grid_of_windows RUSH_HOURS ∧
  generate_time_series =
    [0; 450; 480; 510; 540; 570; 960; 990; 1020; 1050; 1080; 1110].
Proof.
  assert (Hgrid : generate_time_series =
    [0; 450; 480; 510; 540; 570; 960; 990; 1020; 1050; 1080; 1110])
    by (vm_compute; reflexivity).
  split; [reflexivity|].
  split; [by rewrite Hgrid|].
  split; [rewrite Hgrid; repeat constructor; lia|].
  split; [by rewrite Hgrid|].
  split; [by rewrite Hgrid|].
  split; [apply generate_time_series_of_windows | exact Hgrid].
Qed.
End time_grid.


(** ** The two rush scans *)

Section rush_scans.
Import TimeGrid Synthesis.

(** The costs depend on the transition only through the states it visits. *)
Lemma cost_loop_same_states {G} `{PyRandom G} (t1 t2 : RushState → Z → RushState)
    (base_cost : Q) (times : list Z) (st : RushState) (acc : list Q) (g : G) :
  rush_states t1 times st = rush_states t2 times st →
  cost_loop t1 base_cost times st acc g = cost_loop t2 base_cost times st acc g.
Proof.
  revert st acc g. induction times as [|time rest IH]; intros st acc g Hst; [done|].
  simpl in Hst. injection Hst as Hhead Htail.
  simpl. rewrite <- Hhead in *. unfold mbind, Rand_bind.
  destruct (cost_at base_cost (t1 st time) time g) as [[c g']|err]; [|done].
  by apply IH.
Qed.

Lemma rush_states_same_default :
  rush_states California.transition ARRIVAL_SERIES (mkRush false 0) =
  rush_states London.transition ARRIVAL_SERIES (mkRush false 0).
Proof. vm_compute. reflexivity. Qed.

(** C9: on the default arrival series the California scan (leave when
    [time == end]) and the London scan (leave when [time >= end] and inside)
    visit the same [(inside_rush, rush_idx)] at every point, and so produce
    the same costs from the same base cost and generator state. *)
Theorem rush_scans_agree :
  rush_states California.transition ARRIVAL_SERIES (mkRush false 0) =
  rush_states London.transition ARRIVAL_SERIES (mkRush false 0) ∧
  ∀ (G : Type) (R : PyRandom G) (base_cost : Q) (g : G),
    travel_costs_of California.transition base_cost g =
    travel_costs_of London.transition base_cost g.
Proof.
  split; [exact rush_states_same_default|]. intros G R base_cost g.
  apply cost_loop_same_states, rush_states_same_default.
Qed.

(** The states both scans visit on the default series. *)
Lemma rush_states_default :
  rush_states California.transition ARRIVAL_SERIES (mkRush false 0) =
  [ mkRush false 0; mkRush true 0; mkRush true 0; mkRush true 0; mkRush true 0;
    mkRush false 1; mkRush true 1; mkRush true 1; mkRush true 1; mkRush true 1;
    mkRush true 1; mkRush false 2 ].
Proof. vm_compute. reflexivity. Qed.

(** Off the default grid the two scans differ: at minute 600, which is
    neither a start nor an end, only the London scan leaves the window. *)
Lemma rush_scans_differ_off_grid :
  rush_states California.transition [450; 600] (mkRush false 0) ≠
  rush_states London.transition [450; 600] (mkRush false 0).
Proof. vm_compute. discriminate. Qed.
End rush_scans.

(** ** Deduplication *)

Section dedupe.
Import Dedupe.

Lemma Qltb_lt (x y : Q) : Qltb x y = true ↔ (x < y)%Q.
Proof. unfold Qltb, Qlt. apply Z.ltb_lt. Qed.

Lemma Qltb_ge (x y : Q) : Qltb x y = false ↔ (y <= x)%Q.
Proof. unfold Qltb, Qle. apply Z.ltb_ge. Qed.

Global Instance key_le_total : Total key_le.
Proof. intros [a1 a2] [b1 b2]. unfold key_le. simpl. lia. Qed.

Global Instance key_le_trans : Transitive key_le.
Proof. intros [a1 a2] [b1 b2] [c1 c2]. unfold key_le. simpl. lia. Qed.

Lemma key_le_lt (a b : Z * Z) : key_le a b → a ≠ b → key_lt a b.
Proof.
  destruct a as [a1 a2], b as [b1 b2]. unfold key_le, key_lt. simpl.
  intros [Hlt|[-> Hle]] Hne; [by left|]. right. split; [done|].
  destruct (decide (a2 = b2)) as [->|]; [done|lia].
Qed.

Lemma key_lt_irrefl (a : Z * Z) : ¬ key_lt a a.
Proof. unfold key_lt. lia. Qed.

(** A sorted list without repetition is strictly sorted. *)
Lemma strictly_sorted_keys (l : list (Z * Z)) :
  StronglySorted key_le l → NoDup l → StronglySorted key_lt l.
Proof.
  induction 1 as [|a l Hs IH Hall]; intros Hnd; [constructor|].
  apply NoDup_cons in Hnd as [Hnotin Hnd]. constructor; [by apply IH|].
  apply Forall_forall. intros b Hb. apply key_le_lt.
  - by eapply Forall_forall in Hall.
  - by intros ->.
Qed.

Lemma strictly_sorted_NoDup (l : list (Z * Z)) :
  StronglySorted key_lt l → NoDup l.
Proof.
  induction 1 as [|a l Hs IH Hall]; constructor; [|done].
  intros Ha. eapply Forall_forall in Hall; [|done]. by apply key_lt_irrefl in Hall.
Qed.

Lemma sorted_keys_elem (m : gmap (Z * Z) EdgeRecord) (k : Z * Z) :
  k ∈ sorted_keys m ↔ is_Some (m !! k).
Proof.
  unfold sorted_keys. rewrite merge_sort_Permutation, list_elem_of_fmap. split.
  - intros [[k' e] [-> He]]. apply elem_of_map_to_list in He. by exists e.
  - intros [e He]. exists (k, e). split; [done|]. by apply elem_of_map_to_list.
Qed.

Lemma sorted_keys_strict (m : gmap (Z * Z) EdgeRecord) :
  StronglySorted key_lt (sorted_keys m).
Proof.
  apply strictly_sorted_keys.
  - apply StronglySorted_merge_sort; apply _.
  - unfold sorted_keys. rewrite merge_sort_Permutation.
    apply NoDup_fst_map_to_list.
Qed.

(** No [KeyError] in the final comprehension. *)
Lemma sorted_keys_lookup (m : gmap (Z * Z) EdgeRecord) (k : Z * Z) :
  k ∈ sorted_keys m → m !! k = Some (m !!! k).
Proof.
  intros [e He]%sorted_keys_elem. by rewrite (lookup_total_correct _ _ _ He).
Qed.

Lemma dedupe_step_lookup (m : gmap (Z * Z) EdgeRecord) (e : EdgeRecord) (k : Z * Z) :
  dedupe_step m e !! k =
  if decide (k = edge_key e) then
    match m !! k with
    | None => Some e
    | Some old => if Qltb (distance e) (distance old) then Some e else Some old
    end
  else m !! k.
Proof.
  unfold dedupe_step. case_decide as Hk.
  - subst k. destruct (m !! edge_key e) as [old|] eqn:Hold.
    + destruct (Qltb _ _); [by rewrite lookup_insert_eq | done].
    + by rewrite lookup_insert_eq.
  - destruct (m !! edge_key e) as [old|].
    + destruct (Qltb _ _); [by rewrite lookup_insert_ne | done].
    + by rewrite lookup_insert_ne.
Qed.

Lemma dedupe_dict_snoc (edges : list EdgeRecord) (e : EdgeRecord) :
  dedupe_dict (edges ++ [e]) = dedupe_step (dedupe_dict edges) e.
Proof. unfold dedupe_dict. by rewrite foldl_snoc. Qed.

(** A key is absent from the dictionary exactly when no edge has it. *)
Lemma dedupe_dict_None (edges : list EdgeRecord) (k : Z * Z) :
  dedupe_dict edges !! k = None ↔ ∀ x, x ∈ edges → edge_key x ≠ k.
Proof.
  induction edges as [|e edges IH] using rev_ind.
  - split; [intros _ x Hx; by apply elem_of_nil in Hx | done].
  - rewrite dedupe_dict_snoc, dedupe_step_lookup. case_decide as Hk.
    + split.
      * destruct (dedupe_dict edges !! k); [destruct (Qltb _ _)|]; done.
      * intros Hall. exfalso. apply (Hall e); [|done].
        apply elem_of_app. right. by apply list_elem_of_singleton.
    + rewrite IH. split.
      * intros Hall x [Hx|Hx%list_elem_of_singleton]%elem_of_app; [by apply Hall|].
        by subst x.
      * intros Hall x Hx. apply Hall, elem_of_app. by left.
Qed.

(** The dictionary holds, under each key, the first shortest edge of the
    group. *)
Lemma dedupe_dict_Some (edges : list EdgeRecord) (k : Z * Z) (e : EdgeRecord) :
  dedupe_dict edges !! k = Some e → first_shortest edges k e.
Proof.
  revert e. induction edges as [|x edges IH] using rev_ind; intros e; [done|].
  rewrite dedupe_dict_snoc, dedupe_step_lookup. case_decide as Hk.
  - destruct (dedupe_dict edges !! k) as [old|] eqn:Hold.
    + destruct (IH old eq_refl) as (before & after & Hsplit & Hkey & Hbefore & Hafter).
      destruct (Qltb (distance x) (distance old)) eqn:Hcmp; intros [= <-].
      * apply Qltb_lt in Hcmp. exists edges, []. split_and!; [done|done| |].
        -- intros y Hy Hyk. rewrite Hsplit in Hy.
           apply elem_of_app in Hy as [Hy|Hy]; [|apply elem_of_cons in Hy as [->|Hy]].
           ++ eapply Qlt_trans; [exact Hcmp | by apply Hbefore].
           ++ exact Hcmp.
           ++ eapply Qlt_le_trans; [exact Hcmp | by apply Hafter].
        -- intros y Hy. by apply elem_of_nil in Hy.
      * apply Qltb_ge in Hcmp. exists before, (after ++ [x]). split_and!.
        -- rewrite Hsplit. by rewrite <- app_assoc.
        -- done.
        -- done.
        -- intros y [Hy|Hy%list_elem_of_singleton]%elem_of_app Hyk; [by apply Hafter|].
           by subst y.
    + intros [= <-]. exists edges, []. split_and!; [done|done| |].
      * intros y Hy Hyk. by eapply dedupe_dict_None in Hold.
      * intros y Hy. by apply elem_of_nil in Hy.
  - intros He. destruct (IH e He) as (before & after & Hsplit & Hkey & Hbefore & Hafter).
    exists before, (after ++ [x]). split_and!.
    + rewrite Hsplit. by rewrite <- app_assoc.
    + done.
    + done.
    + intros y [Hy|Hy%list_elem_of_singleton]%elem_of_app Hyk; [by apply Hafter|].
      subst y. congruence.
Qed.

Lemma dedupe_dict_key (edges : list EdgeRecord) (k : Z * Z) (e : EdgeRecord) :
  dedupe_dict edges !! k = Some e → edge_key e = k.
Proof. intros (_ & _ & _ & Hkey & _)%dedupe_dict_Some. exact Hkey. Qed.

Lemma dedupe_edges_elem (edges : list EdgeRecord) (e : EdgeRecord) :
  e ∈ dedupe_edges edges ↔ dedupe_dict edges !! edge_key e = Some e.
Proof.
  unfold dedupe_edges. rewrite list_elem_of_fmap. split.
  - intros [k [-> Hk]]. apply sorted_keys_lookup in Hk.
    by rewrite (dedupe_dict_key _ _ _ Hk).
  - intros He. exists (edge_key e). split.
    + by rewrite (lookup_total_correct _ _ _ He).
    + apply sorted_keys_elem. by exists e.
Qed.

Lemma dedupe_edges_keys (edges : list EdgeRecord) :
  edge_key <$> dedupe_edges edges = sorted_keys (dedupe_dict edges).
Proof.
  unfold dedupe_edges. rewrite <- list_fmap_compose.
  rewrite <- (list_fmap_id (sorted_keys _)) at 2.
  apply list_fmap_ext. intros i k Hk. simpl.
  apply list_elem_of_lookup_2, sorted_keys_lookup in Hk.
  by apply dedupe_dict_key in Hk.
Qed.

(** C3: the result of deduplication is unique by [(src, dst)] and sorted
    ascending by it; each member is the shortest edge of its group, the
    first one among equally short ones; every group is represented; and
    the edges [(0,1,5.0)], [(0,1,3.2)] collapse to [(0,1,3.2)]. *)
Theorem dedupe_edges_canonical (edges : list EdgeRecord) :
  NoDup (edge_key <$> dedupe_edges edges) ∧
  StronglySorted key_lt (edge_key <$> dedupe_edges edges) ∧
  (∀ e, e ∈ dedupe_edges edges → first_shortest edges (edge_key e) e) ∧
  (∀ x, x ∈ edges → ∃ e, e ∈ dedupe_edges edges ∧ edge_key e = edge_key x) ∧
  dedupe_edges [mkEdge 0 1 5; mkEdge 0 1 (32 # 10)] = [mkEdge 0 1 (32 # 10)].
Proof.
  assert (Hsorted : StronglySorted key_lt (edge_key <$> dedupe_edges edges))
    by (rewrite dedupe_edges_keys; apply sorted_keys_strict).
  split_and!.
  - by apply strictly_sorted_NoDup.
  - exact Hsorted.
  - intros e He. by apply dedupe_dict_Some, dedupe_edges_elem.
  - intros x Hx. destruct (dedupe_dict edges !! edge_key x) as [e|] eqn:He.
    + pose proof (dedupe_dict_key _ _ _ He) as Hkey. exists e. split; [|done].
      apply dedupe_edges_elem. by rewrite Hkey.
    + by eapply dedupe_dict_None in He.
  - vm_compute. reflexivity.
Qed.

(** Feeding back the values of a dictionary, one per key, rebuilds it. *)
Lemma dedupe_rebuild (m : gmap (Z * Z) EdgeRecord) (ks : list (Z * Z))
    (acc : gmap (Z * Z) EdgeRecord) (k : Z * Z) :
  (∀ k e, m !! k = Some e → edge_key e = k) →
  NoDup ks →
  (∀ k, k ∈ ks → is_Some (m !! k)) →
  (∀ k, k ∈ ks → acc !! k = None) →
  foldl dedupe_step acc ((λ k, m !!! k) <$> ks) !! k =
  if decide (k ∈ ks) then m !! k else acc !! k.
Proof.
  intros Hkeys. revert acc. induction ks as [|a ks IH]; intros acc Hnd Hdom Hfresh.
  - destruct (decide (k ∈ [])) as [Hin|_]; [by apply elem_of_nil in Hin | done].
  - apply NoDup_cons in Hnd as [Hnotin Hnd]. rewrite fmap_cons. simpl foldl.
    destruct (Hdom a) as [e He]; [by left|].
    rewrite (lookup_total_correct _ _ _ He).
    pose proof (Hkeys _ _ He) as Hkey.
    assert (Hstep : dedupe_step acc e = <[a := e]> acc).
    { unfold dedupe_step. rewrite Hkey. rewrite Hfresh by (by left). done. }
    rewrite Hstep. rewrite IH; [|done| |].
    + destruct (decide (k = a)) as [->|Hne].
      * rewrite decide_False by done. rewrite decide_True by (by left).
        by rewrite lookup_insert_eq.
      * rewrite lookup_insert_ne by done.
        destruct (decide (k ∈ ks)) as [Hin|Hin].
        -- by rewrite decide_True by (by right).
        -- rewrite decide_False; [done|]. by intros [->|?]%elem_of_cons.
    + intros k' Hk'. apply Hdom. by right.
    + intros k' Hk'. rewrite lookup_insert_ne by (by intros ->).
      apply Hfresh. by right.
Qed.

Lemma dedupe_dict_fixpoint (edges : list EdgeRecord) :
  dedupe_dict (dedupe_edges edges) = dedupe_dict edges.
Proof.
  apply map_eq. intros k. unfold dedupe_dict at 1, dedupe_edges.
  rewrite dedupe_rebuild.
  - case_decide as Hin; [done|]. rewrite lookup_empty.
    destruct (dedupe_dict edges !! k) as [e|] eqn:He; [|done].
    exfalso. apply Hin, sorted_keys_elem. by exists e.
  - apply dedupe_dict_key.
  - apply strictly_sorted_NoDup, sorted_keys_strict.
  - intros k'. apply sorted_keys_elem.
  - intros k' _. apply lookup_empty.
Qed.

(** C8: deduplicating the output of deduplication changes nothing. *)
Theorem dedupe_edges_idempotent (edges : list EdgeRecord) :
  dedupe_edges (dedupe_edges edges) = dedupe_edges edges.
Proof.
  unfold dedupe_edges at 1. by rewrite dedupe_dict_fixpoint.
Qed.
End dedupe.

(** ** Renumbering (London) *)

Section renumber.
Import London.

Lemma for_each_snoc {A S} (body : S → A → Except S) (l : list A) (a : A) (acc : S) :
  for_each body (l ++ [a]) acc = (acc' ← for_each body l acc; body acc' a).
Proof.
  revert acc. induction l as [|b l IH]; intros acc; simpl.
  - by destruct (body acc a).
  - destruct (body acc b) as [acc'|err]; simpl; [apply IH | done].
Qed.

Lemma sorted_ids_elem (used_ids : gset Z) (a : Z) :
  a ∈ sorted_ids used_ids ↔ a ∈ used_ids.
Proof. unfold sorted_ids. by rewrite merge_sort_Permutation, elem_of_elements. Qed.

Lemma sorted_ids_NoDup (used_ids : gset Z) : NoDup (sorted_ids used_ids).
Proof. unfold sorted_ids. rewrite merge_sort_Permutation. apply NoDup_elements. Qed.

Lemma sorted_ids_length (used_ids : gset Z) :
  length (sorted_ids used_ids) = size used_ids.
Proof. unfold sorted_ids. by rewrite merge_sort_Permutation. Qed.

Lemma sorted_ids_sorted (used_ids : gset Z) :
  StronglySorted Z.le (sorted_ids used_ids).
Proof. apply StronglySorted_merge_sort; apply _. Qed.

(** Positions in the sorted list are ordered as the ids are. *)
Lemma sorted_ids_order (used_ids : gset Z) (n m : nat) (a b : Z) :
  sorted_ids used_ids !! n = Some a → sorted_ids used_ids !! m = Some b →
  (a < b ↔ (n < m)%nat).
Proof.
  intros Hn Hm. pose proof (sorted_ids_sorted used_ids) as Hs.
  pose proof (sorted_ids_NoDup used_ids) as Hnd.
  assert (Hmono : ∀ i j x y, sorted_ids used_ids !! i = Some x →
            sorted_ids used_ids !! j = Some y → (i < j)%nat → x < y).
  { intros i j x y Hi Hj Hij.
    assert (x ≤ y).
    { apply (StronglySorted_app_1_elem_of Z.le (take j (sorted_ids used_ids))
               (drop j (sorted_ids used_ids))).
      - by rewrite take_drop.
      - apply list_elem_of_lookup. exists i. rewrite lookup_take_lt by done. done.
      - apply list_elem_of_lookup. exists 0%nat. rewrite lookup_drop.
        by rewrite Nat.add_0_r. }
    assert (x ≠ y); [|lia]. intros ->.
    pose proof (NoDup_lookup _ _ _ _ Hnd Hi Hj). lia. }
  split.
  - intros Hab. destruct (decide (n < m)%nat) as [|Hge]; [done|].
    destruct (decide (n = m)) as [->|Hne]; [rewrite Hn in Hm; injection Hm; lia|].
    assert (b < a) by (apply (Hmono m n); [done|done|lia]). lia.
  - by apply Hmono.
Qed.

Lemma for_each_cons {A S} (body : S → A → Except S) (a : A) (l : list A) (acc : S) :
  for_each body (a :: l) acc = (acc' ← body acc a; for_each body l acc').
Proof. reflexivity. Qed.

Lemma bind_Ok {A B} (a : A) (f : A → Except B) : (Ok a ≫= f) = f a.
Proof. reflexivity. Qed.

Lemma dict_get_Some `{Countable K} {V} (d : gmap K V) (k : K) (v : V) :
  d !! k = Some v → dict_get d k = Ok v.
Proof. intros Hk. unfold dict_get. by rewrite Hk. Qed.

(** The dictionary built from an enumeration maps each element to its
    position. *)
Lemma enumerate_dict_lookup (l : list Z) (a i : Z) :
  NoDup l →
  foldl (λ (d : gmap Z Z) (p : nat * Z), <[p.2 := Z.of_nat p.1]> d) ∅ (imap pair l) !! a
    = Some i ↔ ∃ n : nat, i = Z.of_nat n ∧ l !! n = Some a.
Proof.
  induction l as [|b l IH] using rev_ind; intros Hnd.
  - simpl. rewrite lookup_empty. split; [done|]. by intros (n & _ & ?).
  - apply NoDup_app in Hnd as (Hnd & Hnotin & _).
    rewrite imap_app, foldl_app. simpl. rewrite Nat.add_0_r.
    destruct (decide (a = b)) as [->|Hne].
    + rewrite lookup_insert_eq. split.
      * intros [= <-]. exists (length l). split; [done|].
        by rewrite list_lookup_middle.
      * intros (n & -> & Hn). apply lookup_snoc_Some in Hn as [[_ Hn]|[<- _]]; [|done].
        exfalso. apply (Hnotin b); [by eapply list_elem_of_lookup_2 | by left].
    + rewrite lookup_insert_ne by done. rewrite IH by done. split.
      * intros (n & -> & Hn). exists n. split; [done|].
        rewrite lookup_app_l; [done|]. by eapply lookup_lt_Some.
      * intros (n & -> & Hn). exists n. split; [done|].
        apply lookup_snoc_Some in Hn as [[_ Hn]|[_ ?]]; [done|congruence].
Qed.

Lemma old_to_new_lookup (used_ids : gset Z) (a i : Z) :
  old_to_new_of used_ids !! a = Some i ↔
  ∃ n : nat, i = Z.of_nat n ∧ sorted_ids used_ids !! n = Some a.
Proof. apply enumerate_dict_lookup, sorted_ids_NoDup. Qed.

Lemma used_ids_elem (edges : list EdgeRecord) (a : Z) :
  a ∈ used_ids_of edges ↔ ∃ e, e ∈ edges ∧ (a = src e ∨ a = dst e).
Proof.
  unfold used_ids_of. rewrite elem_of_union, !elem_of_list_to_set, !list_elem_of_fmap.
  split.
  - intros [(e & -> & He)|(e & -> & He)]; exists e; auto.
  - intros (e & He & [->| ->]); [left|right]; by exists e.
Qed.

Lemma old_to_new_dom (used_ids : gset Z) (a : Z) :
  a ∈ used_ids ↔ is_Some (old_to_new_of used_ids !! a).
Proof.
  rewrite <- sorted_ids_elem, list_elem_of_lookup. split.
  - intros [n Hn]. exists (Z.of_nat n). apply old_to_new_lookup. by exists n.
  - intros [i (n & _ & Hn)%old_to_new_lookup]. by exists n.
Qed.

Lemma old_to_new_range (used_ids : gset Z) (a i : Z) :
  old_to_new_of used_ids !! a = Some i → 0 ≤ i < Z.of_nat (size used_ids).
Proof.
  intros (n & -> & Hn%lookup_lt_Some)%old_to_new_lookup.
  rewrite sorted_ids_length in Hn. lia.
Qed.

Lemma old_to_new_onto (used_ids : gset Z) (i : Z) :
  0 ≤ i < Z.of_nat (size used_ids) → ∃ a, old_to_new_of used_ids !! a = Some i.
Proof.
  intros Hi. destruct (lookup_lt_is_Some_2 (sorted_ids used_ids) (Z.to_nat i)) as [a Ha].
  { rewrite sorted_ids_length. lia. }
  exists a. apply old_to_new_lookup. exists (Z.to_nat i). split; [lia|done].
Qed.

Lemma old_to_new_order (used_ids : gset Z) (a b i j : Z) :
  old_to_new_of used_ids !! a = Some i → old_to_new_of used_ids !! b = Some j →
  (a < b ↔ i < j).
Proof.
  intros (n & -> & Hn)%old_to_new_lookup (m & -> & Hm)%old_to_new_lookup.
  rewrite (sorted_ids_order _ _ _ _ _ Hn Hm). lia.
Qed.

Lemma old_to_new_inj (used_ids : gset Z) (a b i : Z) :
  old_to_new_of used_ids !! a = Some i → old_to_new_of used_ids !! b = Some i →
  a = b.
Proof.
  intros Ha Hb. pose proof (old_to_new_order _ _ _ _ _ Ha Hb).
  pose proof (old_to_new_order _ _ _ _ _ Hb Ha). lia.
Qed.

(** The loop over [nodes.items()]. *)
Lemma renumber_nodes_loop (used_ids : gset Z) (items : list (Z * NodeRecord)) :
  NoDup items.*1 →
  ∃ new_nodes : gmap Z NodeRecord,
    for_each (λ new_nodes (item : Z * NodeRecord),
        let (old_id, node) := item in
        if bool_decide (old_id ∈ used_ids) then
          new_id ← dict_get (old_to_new_of used_ids) old_id;
          Ok (<[new_id := mkNode new_id (x node) (y node) (lat node) (lon node)]>
                new_nodes)
        else Ok new_nodes) items ∅ = Ok new_nodes ∧
    ∀ j n', new_nodes !! j = Some n' ↔
      ∃ old n, (old, n) ∈ items ∧ old_to_new_of used_ids !! old = Some j ∧
               n' = mkNode j (x n) (y n) (lat n) (lon n).
Proof.
  induction items as [|[old0 n0] items IH] using rev_ind; intros Hnd.
  - exists ∅. split; [done|]. intros j n'. rewrite lookup_empty. split; [done|].
    intros (old & n & Hin & _). by apply elem_of_nil in Hin.
  - rewrite fmap_app in Hnd. apply NoDup_app in Hnd as (Hnd & Hfresh & _).
    destruct (IH Hnd) as (m & Hm & Hlookup). rewrite for_each_snoc, Hm. simpl.
    assert (Hold0 : ∀ n, (old0, n) ∈ items ++ [(old0, n0)] → n = n0).
    { intros n [Hin|Hin%list_elem_of_singleton]%elem_of_app; [|congruence].
      exfalso. apply (Hfresh old0); [|by left].
      apply list_elem_of_fmap. by exists (old0, n). }
    case_bool_decide as Hused.
    + apply old_to_new_dom in Hused as [i0 Hi0]. unfold dict_get. rewrite Hi0. simpl.
      eexists. split; [done|]. intros j n'.
      destruct (decide (j = i0)) as [->|Hne].
      * rewrite lookup_insert_eq. split.
        -- intros [= <-]. exists old0, n0. split_and!; [|done|done].
           apply elem_of_app. right. by left.
        -- intros (old & n & Hin & Hf & ->).
           pose proof (old_to_new_inj _ _ _ _ Hf Hi0) as ->.
           by rewrite (Hold0 _ Hin).
      * rewrite lookup_insert_ne by done. rewrite Hlookup. split.
        -- intros (old & n & Hin & Hrest). exists old, n. split; [|done].
           apply elem_of_app. by left.
        -- intros (old & n & [Hin|Hin%list_elem_of_singleton]%elem_of_app & Hf & ->).
           ++ by exists old, n.
           ++ congruence.
    + exists m. split; [done|]. intros j n'. rewrite Hlookup. split.
      * intros (old & n & Hin & Hrest). exists old, n. split; [|done].
        apply elem_of_app. by left.
      * intros (old & n & [Hin|Hin%list_elem_of_singleton]%elem_of_app & Hf & ->).
        -- by exists old, n.
        -- exfalso. apply Hused, old_to_new_dom. injection Hin as -> ->. by eexists.
Qed.

(** The loop over [edges]: every subscript of [old_to_new] succeeds. *)
Lemma renumber_edges_loop (old_to_new : gmap Z Z) (edges acc : list EdgeRecord) :
  (∀ e, e ∈ edges → is_Some (old_to_new !! src e) ∧ is_Some (old_to_new !! dst e)) →
  ∃ new_edges,
    for_each (λ new_edges e,
        s ← dict_get old_to_new (src e);
        d ← dict_get old_to_new (dst e);
        Ok (new_edges ++ [mkEdge s d (distance e)])) edges acc
      = Ok (acc ++ new_edges) ∧
    Forall2 (λ e e', old_to_new !! src e = Some (src e') ∧
                     old_to_new !! dst e = Some (dst e') ∧
                     distance e' = distance e) edges new_edges.
Proof.
  revert acc. induction edges as [|e edges IH]; intros acc Hdom.
  - exists []. split; [by rewrite app_nil_r | constructor].
  - destruct (Hdom e) as [[s Hs] [d Hd]]; [by left|].
    destruct (IH (acc ++ [mkEdge s d (distance e)])) as (rest & Hrest & Hall).
    { intros e' He'. apply Hdom. by right. }
    exists (mkEdge s d (distance e) :: rest). split.
    + rewrite for_each_cons. cbv beta.
      rewrite (dict_get_Some _ _ _ Hs), bind_Ok, (dict_get_Some _ _ _ Hd), !bind_Ok.
      rewrite Hrest. by rewrite <- app_assoc.
    + by constructor.
Qed.

(** C4: when every edge endpoint has a node record, renumbering maps the
    referenced ids bijectively onto [0 .. M-1] in ascending raw-id order,
    keeps exactly the referenced nodes under their new ids, remaps both
    endpoints of every edge, and leaves no endpoint at or above the new node
    count. *)
Theorem renumber_nodes_contiguous_bijection
    (nodes : gmap Z NodeRecord) (edges : list EdgeRecord) :
  Forall (λ e, is_Some (nodes !! src e) ∧ is_Some (nodes !! dst e)) edges →
  let used_ids := used_ids_of edges in
  let old_to_new := old_to_new_of used_ids in
  let M := Z.of_nat (size used_ids) in
  (∀ a, a ∈ used_ids ↔ ∃ e, e ∈ edges ∧ (a = src e ∨ a = dst e)) ∧
  (∀ a, a ∈ used_ids ↔ is_Some (old_to_new !! a)) ∧
  (∀ a i, old_to_new !! a = Some i → 0 ≤ i < M) ∧
  (∀ a b i, old_to_new !! a = Some i → old_to_new !! b = Some i → a = b) ∧
  (∀ i, 0 ≤ i < M → ∃ a, old_to_new !! a = Some i) ∧
  (∀ a b i j, old_to_new !! a = Some i → old_to_new !! b = Some j →
     (a < b ↔ i < j)) ∧
  ∃ new_nodes new_edges,
    renumber_nodes_contiguous nodes edges = Ok (new_nodes, new_edges) ∧
    (∀ j n', new_nodes !! j = Some n' ↔
       ∃ old n, nodes !! old = Some n ∧ old_to_new !! old = Some j ∧
                n' = mkNode j (x n) (y n) (lat n) (lon n)) ∧
    Forall2 (λ e e', old_to_new !! src e = Some (src e') ∧
                     old_to_new !! dst e = Some (dst e') ∧
                     distance e' = distance e) edges new_edges ∧
    Z.of_nat (size new_nodes) = M ∧
    Forall (λ e', 0 ≤ src e' < Z.of_nat (size new_nodes) ∧
                  0 ≤ dst e' < Z.of_nat (size new_nodes)) new_edges.
Proof.
  intros Hrecords used_ids old_to_new M.
  split; [apply used_ids_elem|].
  split; [apply old_to_new_dom|].
  split; [apply old_to_new_range|].
  split; [apply old_to_new_inj|].
  split; [apply old_to_new_onto|].
  split; [apply old_to_new_order|].
  destruct (renumber_nodes_loop used_ids (map_to_list nodes))
    as (new_nodes & Hnodes & Hlookup); [apply NoDup_fst_map_to_list|].
  destruct (renumber_edges_loop old_to_new edges []) as (new_edges & Hedges & Hall).
  { intros e He. split; apply old_to_new_dom, used_ids_elem; exists e; auto. }
  assert (Hnew : ∀ j n', new_nodes !! j = Some n' ↔
       ∃ old n, nodes !! old = Some n ∧ old_to_new !! old = Some j ∧
                n' = mkNode j (x n) (y n) (lat n) (lon n)).
  { intros j n'. rewrite Hlookup. split.
    - intros (old & n & Hin%elem_of_map_to_list & Hrest). by exists old, n.
    - intros (old & n & Hin%elem_of_map_to_list & Hrest). by exists old, n. }
  assert (Hsize : Z.of_nat (size new_nodes) = M).
  { assert (Hdom : dom new_nodes = list_to_set (seqZ 0 M)).
    { apply set_eq. intros j.
      rewrite elem_of_dom, elem_of_list_to_set, elem_of_seqZ. split.
      - intros [n' (old & n & _ & Hf & _)%Hnew].
        apply old_to_new_range in Hf. fold M in Hf. lia.
      - intros Hj. destruct (old_to_new_onto used_ids j) as [a Ha]; [fold M; lia|].
        assert (Hused : a ∈ used_ids) by (apply old_to_new_dom; by eexists).
        apply used_ids_elem in Hused as (e & He & Hends).
        rewrite Forall_forall in Hrecords. destruct (Hrecords e He) as [[n Hn] [n2 Hn2]].
        destruct Hends as [->| ->]; eexists; apply Hnew; eauto. }
    rewrite <- size_dom, Hdom, size_list_to_set by apply NoDup_seqZ.
    rewrite length_seqZ. lia. }
  exists new_nodes, new_edges. split_and!; [|done|done|done|].
  - unfold renumber_nodes_contiguous. cbv zeta.
    unfold old_to_new, used_ids in Hnodes, Hedges.
    by rewrite Hnodes, bind_Ok, Hedges.
  - rewrite Hsize. apply Forall_forall. intros e' [i Hi]%list_elem_of_lookup.
    destruct (Forall2_lookup_r _ _ _ _ _ Hall Hi) as (e & _ & Hs & Hd & _).
    apply old_to_new_range in Hs, Hd. fold M in Hs, Hd. lia.
Qed.

(** The theorem on a small map: nodes 2, 5, 7, 9 and edges 9→5, 2→9;
    node 7 is dropped and 2, 5, 9 become 0, 1, 2. *)
Lemma renumber_nodes_contiguous_bijection_witness :
  let nodes : gmap Z NodeRecord :=
    list_to_map [ (5, mkNode 5 1 1 1 1); (9, mkNode 9 2 2 2 2);
                  (2, mkNode 2 3 3 3 3); (7, mkNode 7 4 4 4 4) ] in
  let edges := [ mkEdge 9 5 1; mkEdge 2 9 (3 # 2) ] in
  ∃ new_nodes new_edges,
    renumber_nodes_contiguous nodes edges = Ok (new_nodes, new_edges) ∧
    Z.of_nat (size new_nodes) = 3 ∧
    new_edges = [ mkEdge 2 1 1; mkEdge 0 2 (3 # 2) ].
Proof.
  intros nodes edges.
  destruct (renumber_nodes_contiguous_bijection nodes edges)
    as (_ & _ & _ & _ & _ & _ & new_nodes & new_edges & Hrun & _ & _ & Hsize & _).
  { repeat constructor; eexists; vm_compute; reflexivity. }
  exists new_nodes, new_edges. split; [exact Hrun|].
  split; [exact Hsize|].
  assert (Hrun' : renumber_nodes_contiguous nodes edges =
                  Ok (new_nodes, [ mkEdge 2 1 1; mkEdge 0 2 (3 # 2) ])).
  { rewrite Hrun. vm_compute in Hrun. injection Hrun as <- <-. reflexivity. }
  rewrite Hrun in Hrun'. by injection Hrun'.
Defined.
End renumber.

(** ** Validation (California) *)

Section validate.
Import California.

Lemma foldl_max_ge (l : list Z) (a : Z) : a ≤ foldl Z.max a l.
Proof.
  revert a. induction l as [|b l IH]; intros a; simpl; [lia|].
  specialize (IH (Z.max a b)). lia.
Qed.

Lemma foldl_max_upper (l : list Z) (a b : Z) : b ∈ l → b ≤ foldl Z.max a l.
Proof.
  revert a. induction l as [|c l IH]; intros a Hb; [by apply elem_of_nil in Hb|].
  simpl. apply elem_of_cons in Hb as [->|Hb]; [|by apply IH].
  pose proof (foldl_max_ge l (Z.max a c)). lia.
Qed.

Lemma foldl_max_elem (l : list Z) (a : Z) : foldl Z.max a l ∈ a :: l.
Proof.
  revert a. induction l as [|b l IH]; intros a; simpl; [by left|].
  specialize (IH (Z.max a b)). apply elem_of_cons in IH as [Heq|Hin].
  - rewrite Heq. destruct (Z.max_spec a b) as [[_ ->]|[_ ->]];
      [right; by left | by left].
  - right. by right.
Qed.

(** [max] of a set raises exactly on the empty set, and otherwise returns
    the greatest element. *)
Lemma set_max_Raise (s : gset Z) (err : PyError) :
  set_max s = Raise err → s = ∅ ∧ err = ValueError.
Proof.
  unfold set_max. destruct (elements s) as [|a l] eqn:Hel; [|done].
  intros [= <-]. split; [|done]. by apply elements_empty_iff in Hel as ->%leibniz_equiv.
Qed.

Lemma set_max_Ok (s : gset Z) (top : Z) :
  set_max s = Ok top → top ∈ s ∧ ∀ a, a ∈ s → a ≤ top.
Proof.
  unfold set_max. destruct (elements s) as [|a l] eqn:Hel; [done|].
  intros [= <-]. split.
  - apply elem_of_elements. rewrite Hel. apply foldl_max_elem.
  - intros b Hb. apply elem_of_elements in Hb. rewrite Hel in Hb.
    apply elem_of_cons in Hb as [->|Hb];
      [apply foldl_max_ge | by apply foldl_max_upper].
Qed.

Lemma set_max_nonempty (s : gset Z) (a : Z) : a ∈ s → ∃ top, set_max s = Ok top.
Proof.
  intros Ha. destruct (set_max s) as [top|err] eqn:Hmax; [by exists top|].
  apply set_max_Raise in Hmax as [-> _]. by apply not_elem_of_empty in Ha.
Qed.

(** An empty node list is rejected. *)
Lemma ensure_ids_contiguous_empty (edges : list EdgeRecord) :
  ensure_ids_contiguous [] edges = Raise ValueError.
Proof. reflexivity. Qed.

Lemma edge_ids_known (ids : gset Z) (edges : list EdgeRecord) :
  (list_to_set (src <$> edges) ∪ list_to_set (dst <$> edges)) ∖ ids = (∅ : gset Z)
  ↔ endpoints_known ids edges.
Proof.
  unfold endpoints_known. split.
  - intros Hempty e He.
    assert (Hsub : ∀ a, a ∈ (list_to_set (src <$> edges) ∪
                             list_to_set (dst <$> edges) : gset Z) → a ∈ ids).
    { intros a Ha. destruct (decide (a ∈ ids)) as [|Hno]; [done|].
      exfalso. apply (not_elem_of_empty (C:=gset Z) a). rewrite <- Hempty.
      by apply elem_of_difference. }
    split; apply Hsub; rewrite elem_of_union, !elem_of_list_to_set, !list_elem_of_fmap;
      [left|right]; by exists e.
  - intros Hknown. apply set_eq. intros a. split; [|by intros ?%not_elem_of_empty].
    rewrite elem_of_difference, elem_of_union, !elem_of_list_to_set, !list_elem_of_fmap.
    intros [[(e & -> & He)|(e & -> & He)] Hno]; destruct (Hknown e He); done.
Qed.

(** Every valid graph is accepted: the check never raises on a non-empty
    node list whose ids are [{0, ..., N-1}] and whose edges stay inside. *)
Lemma ensure_ids_contiguous_accepts_valid (nodes : list NodeRecord)
    (edges : list EdgeRecord) :
  graph_valid nodes edges → ensure_ids_contiguous nodes edges = Ok tt.
Proof.
  unfold graph_valid, ensure_ids_contiguous. cbv zeta.
  set (ids := list_to_set (node_id <$> nodes) : gset Z).
  intros (Hne & Hcont & Hknown).
  assert (Hmem : ∀ a, a ∈ ids ↔ 0 ≤ a < Z.of_nat (size ids)).
  { intros a. unfold ids_contiguous in Hcont. rewrite Hcont at 1.
    rewrite elem_of_list_to_set, elem_of_seqZ. lia. }
  destruct nodes as [|n0 nodes]; [done|].
  assert (Hn0 : node_id n0 ∈ ids).
  { subst ids. apply elem_of_list_to_set. rewrite fmap_cons. by left. }
  destruct (set_max_nonempty ids _ Hn0) as [top Htop]. rewrite Htop, bind_Ok.
  apply set_max_Ok in Htop as [Htop Hmax].
  rewrite bool_decide_eq_true_2.
  - rewrite bool_decide_eq_true_2; [done|]. by apply edge_ids_known.
  - apply filter_none, Forall_forall. intros i Hi%elem_of_seqZ Hno. apply Hno.
    apply Hmem. apply Hmem in Htop. lia.
Qed.

(** When no raw id is negative, every accepted graph is valid. *)
Lemma ensure_ids_contiguous_nonneg_valid (nodes : list NodeRecord)
    (edges : list EdgeRecord) :
  Forall (λ n, 0 ≤ node_id n) nodes →
  ensure_ids_contiguous nodes edges = Ok tt → graph_valid nodes edges.
Proof.
  unfold graph_valid, ensure_ids_contiguous. cbv zeta.
  set (ids := list_to_set (node_id <$> nodes) : gset Z).
  intros Hnonneg Hrun.
  assert (Hpos : ∀ a, a ∈ ids → 0 ≤ a).
  { intros a. subst ids. rewrite elem_of_list_to_set, list_elem_of_fmap.
    intros (n & -> & Hn). by eapply Forall_forall in Hnonneg. }
  destruct (set_max ids) as [top|err] eqn:Htop; [|done]. rewrite bind_Ok in Hrun.
  apply set_max_Ok in Htop as [Htop Hmax].
  case_bool_decide as Hmissing; [|done]. case_bool_decide as Hunknown; [|done].
  assert (Hids : ids = list_to_set (seqZ 0 (top + 1))).
  { apply set_eq. intros a. rewrite elem_of_list_to_set, elem_of_seqZ. split.
    - intros Ha. specialize (Hpos a Ha). specialize (Hmax a Ha). lia.
    - intros Ha. destruct (decide (a ∈ ids)) as [|Hno]; [done|]. exfalso.
      eapply (filter_nil_not_elem_of _ _ a Hmissing); [done|].
      apply elem_of_seqZ. lia. }
  assert (Hsize : Z.of_nat (size ids) = top + 1).
  { rewrite Hids at 1. rewrite size_list_to_set by apply NoDup_seqZ.
    rewrite length_seqZ. specialize (Hpos top Htop). lia. }
  split_and!.
  - intros ->. subst ids. by apply not_elem_of_empty in Htop.
  - unfold ids_contiguous. by rewrite Hsize.
  - by apply edge_ids_known.
Qed.

(** C7 fails on the code: the node list with raw ids -1 and 0 passes the
    check (only [0 .. max] is scanned for gaps) although its id set is not
    [{0, 1}]. *)
Theorem ensure_ids_contiguous_accepts_negative_id :
  let nodes := [mkNode (-1) 0 0; mkNode 0 0 0] in
  ensure_ids_contiguous nodes [] = Ok tt ∧ ¬ graph_valid nodes [].
Proof.
  split; [vm_compute; reflexivity|].
  intros (_ & Hcont & _). unfold ids_contiguous in Hcont.
  assert (Hin : -1 ∈ (list_to_set (node_id <$> [mkNode (-1) 0 0; mkNode 0 0 0]) : gset Z)).
  { apply elem_of_list_to_set. by left. }
  rewrite Hcont in Hin. apply elem_of_list_to_set, elem_of_seqZ in Hin. lia.
Qed.
End validate.

(** ** The generator *)

Section generator.

Global Instance Lcg_laws : PyRandomLaws Z.
Proof.
  split.
  - intros g. simpl. unfold Qle, Qlt, Lcg.step, Lcg.modulus. simpl.
    pose proof (Z.mod_pos_bound (g * 1103515245 + 12345) 2147483648). lia.
  - intros n g Hn. simpl. apply Z.mod_pos_bound. lia.
Qed.

Context {G : Type} `{PyRandomLaws G}.

Lemma bind_rand_Ok {A B} (m : Rand G A) (f : A → Rand G B) (g g' : G) (a : A) :
  m g = Ok (a, g') → (m ≫= f) g = f a g'.
Proof. intros Hm. unfold mbind, Rand_bind. by rewrite Hm. Qed.

Lemma bind_rand_inv {A B} (m : Rand G A) (f : A → Rand G B) (g g2 : G) (b : B) :
  (m ≫= f) g = Ok (b, g2) → ∃ a g1, m g = Ok (a, g1) ∧ f a g1 = Ok (b, g2).
Proof.
  unfold mbind, Rand_bind. destruct (m g) as [[a g1]|err]; [|done].
  intros Hf. by exists a, g1.
Qed.

(** [uniform(a, b)] never raises and stays between its bounds. *)
Lemma uniform_range (a b : Q) (g : G) :
  (a <= b)%Q →
  ∃ m g', uniform a b g = Ok (m, g') ∧ (a <= m)%Q ∧ (m <= b)%Q.
Proof.
  intros Hab. unfold uniform. destruct (rng_random g) as [u g'] eqn:Hu.
  pose proof (rng_random_range g) as [Hlo Hhi]. rewrite Hu in Hlo, Hhi. simpl in *.
  exists (a + (b - a) * u)%Q, g'. split; [done|]. split; nra.
Qed.

(** The multiplier of a position lies in the range of the position, and is
    0 when the position has none. *)
Lemma rush_multiplier_range (position : Z) (g : G) :
  ∃ m g', Synthesis.rush_multiplier position g = Ok (m, g') ∧
    match multiplier_range position with
    | Some (lo, hi) => (lo <= m)%Q ∧ (m <= hi)%Q
    | None => m = 0%Q
    end.
Proof.
  unfold Synthesis.rush_multiplier, multiplier_range.
  destruct ((position =? 0) || (position =? 4)); [by apply uniform_range|].
  destruct ((position =? 1) || (position =? 3)); [by apply uniform_range|].
  destruct (position =? 2); [by apply uniform_range|].
  by exists 0%Q, g.
Qed.

End generator.

(** ** The cost scan *)

Section cost_scan.
Import TimeGrid Synthesis.
Context {G : Type} `{PyRandomLaws G}.

Lemma cost_at_state (base_cost : Q) (st : RushState) (time : Z) (g : G) :
  (inside_rush st = true → is_Some (RUSH_HOURS !! rush_idx st)) →
  ∃ c g', cost_at base_cost st time g = Ok (c, g') ∧ state_cost base_cost st time c.
Proof.
  intros Hwin. unfold cost_at, state_cost.
  destruct (inside_rush st); [|by exists base_cost, g].
  destruct Hwin as [w Hw]; [done|]. unfold list_get. rewrite Hw.
  destruct (rush_multiplier_range ((time - w.1) / 30) g) as (m & g' & Hm & Hrange).
  exists (base_cost + base_cost * m)%Q, g'. split.
  - unfold mbind, Rand_bind, lift_except. by rewrite Hm.
  - unfold raised_cost. destruct (multiplier_range _) as [[lo hi]|].
    + exists m. by destruct Hrange.
    + by rewrite Hrange.
Qed.

(** The loop appends one cost per time, each the cost of its point in the
    state reached there. *)
Lemma cost_loop_states (transition : RushState → Z → RushState) (base_cost : Q)
    (times : list Z) (st : RushState) (acc : list Q) (g : G) :
  Forall (λ st', inside_rush st' = true → is_Some (RUSH_HOURS !! rush_idx st'))
    (rush_states transition times st) →
  ∃ costs g',
    cost_loop transition base_cost times st acc g = Ok (acc ++ costs, g') ∧
    Forall2 (λ p c, state_cost base_cost p.1 p.2 c)
      (zip (rush_states transition times st) times) costs.
Proof.
  revert st acc g. induction times as [|time rest IH]; intros st acc g Hwin.
  - exists [], g. split; [by rewrite app_nil_r | constructor].
  - simpl in Hwin. apply Forall_cons in Hwin as [Hhere Hrest].
    destruct (cost_at_state base_cost (transition st time) time g Hhere)
      as (c & g1 & Hc & Hcost).
    destruct (IH (transition st time) (acc ++ [c]) g1 Hrest)
      as (costs & g2 & Hloop & Hcosts).
    exists (c :: costs), g2. split.
    + simpl. rewrite (bind_rand_Ok _ _ _ _ _ Hc), Hloop. by rewrite <- app_assoc.
    + simpl. by constructor.
Qed.

Lemma Forall2_zip_states {S} (P : S * Z → Q → Prop) (R : Z → Q → Prop)
    (states : list S) (times : list Z) (costs : list Q) :
  length states = length times →
  Forall (λ p, ∀ c, P p c → R p.2 c) (zip states times) →
  Forall2 P (zip states times) costs → Forall2 R times costs.
Proof.
  revert times costs. induction states as [|s states IH];
    intros [|t times] costs Hlen Himp Hall; simpl in *; try done.
  - inversion Hall. constructor.
  - inversion Hall as [|p c ps cs Hp Hps]; subst.
    apply Forall_cons in Himp as [Hhere Hrest].
    constructor; [by apply (Hhere c) | apply IH; [lia|done|done]].
Qed.

(** On the default series both scans never raise, and price every point as
    [point_cost] says. *)
Lemma travel_costs_default (base_cost : Q) (g : G) :
  ∃ costs g',
    travel_costs_of California.transition base_cost g = Ok (costs, g') ∧
    travel_costs_of London.transition base_cost g = Ok (costs, g') ∧
    length costs = length ARRIVAL_SERIES ∧
    Forall2 (point_cost base_cost) ARRIVAL_SERIES costs.
Proof.
  destruct (cost_loop_states California.transition base_cost ARRIVAL_SERIES
              (mkRush false 0) [] g) as (costs & g' & Hrun & Hcosts).
  { rewrite rush_states_default. repeat constructor; try done; intros _; by eexists. }
  exists costs, g'.
  assert (Hpoint : Forall2 (point_cost base_cost) ARRIVAL_SERIES costs).
  { eapply Forall2_zip_states; [| |exact Hcosts].
    - by rewrite rush_states_default.
    - rewrite rush_states_default.
      replace ARRIVAL_SERIES with
        [0; 450; 480; 510; 540; 570; 960; 990; 1020; 1050; 1080; 1110]
        by (vm_compute; reflexivity).
      repeat constructor; intros c Hc; exact Hc. }
  split_and!.
  - exact Hrun.
  - unfold travel_costs_of in *.
    by rewrite <- (cost_loop_same_states _ _ _ _ _ _ _ rush_states_same_default).
  - symmetry. by eapply Forall2_length.
  - exact Hpoint.
Qed.

End cost_scan.

(** ** The shuffle and the loop over the edges *)

Section edge_loop.
Import TimeGrid Synthesis.
Context {G : Type} `{PyRandomLaws G}.

(** [shuffle] never raises and keeps the length. *)
Lemma shuffle_loop_total {A} (indices : list nat) (l : list A) (g : G) :
  Forall (λ i, (i < length l)%nat) indices →
  ∃ l' g', shuffle_loop indices l g = Ok (l', g') ∧ length l' = length l.
Proof.
  revert l g. induction indices as [|i rest IH]; intros l g Hidx.
  - by exists l, g.
  - apply Forall_cons in Hidx as [Hi Hrest]. simpl.
    destruct (rng_randbelow (Z.of_nat i + 1) g) as [j g1] eqn:Hj.
    pose proof (rng_randbelow_range (Z.of_nat i + 1) g ltac:(lia)) as Hrange.
    rewrite Hj in Hrange. simpl in Hrange.
    destruct (lookup_lt_is_Some_2 l (Z.to_nat j)) as [xj Hxj]; [lia|].
    destruct (lookup_lt_is_Some_2 l i) as [xi Hxi]; [lia|].
    destruct (IH (<[Z.to_nat j := xi]> (<[i := xj]> l)) g1) as (l' & g' & Hrun & Hlen).
    { rewrite !length_insert. exact Hrest. }
    exists l', g'. split.
    + unfold swap, list_get. rewrite Hxj, Hxi. simpl.
      unfold mbind, Rand_bind, lift_except. simpl. exact Hrun.
    + rewrite Hlen. by rewrite !length_insert.
Qed.

Lemma shuffle_total {A} (l : list A) (g : G) :
  ∃ l' g', shuffle l g = Ok (l', g') ∧ length l' = length l.
Proof.
  apply shuffle_loop_total, Forall_forall. intros i Hi.
  apply elem_of_reverse, elem_of_seq in Hi. lia.
Qed.

Lemma percent_flags_length (n : nat) (pct : Z) : length (percent_flags n pct) = n.
Proof. unfold percent_flags. by rewrite length_fmap, length_seq. Qed.

Lemma clearway_flags_total (n : nat) (pct : Z) (g : G) :
  ∃ flags g', clearway_flags n pct g = Ok (flags, g') ∧ length flags = n.
Proof.
  destruct (shuffle_total (percent_flags n pct) (rng_seed 123))
    as (flags & g' & Hrun & Hlen).
  exists flags, g'. split; [exact Hrun|]. by rewrite Hlen, percent_flags_length.
Qed.

Lemma for_each_rand_total {A B} (body : A → Rand G B) (P : A → B → Prop)
    (l : list A) (g : G) :
  (∀ a g, a ∈ l → ∃ b g', body a g = Ok (b, g') ∧ P a b) →
  ∃ bs g', for_each_rand body l g = Ok (bs, g') ∧ Forall2 P l bs.
Proof.
  revert g. induction l as [|a l IH]; intros g Hbody.
  - exists [], g. split; [done|constructor].
  - destruct (Hbody a g) as (b & g1 & Hb & HP); [by left|].
    destruct (IH g1) as (bs & g2 & Hbs & Hall).
    { intros a' g' Ha'. apply Hbody. by right. }
    exists (b :: bs), g2. split; [|by constructor].
    simpl. rewrite (bind_rand_Ok _ _ _ _ _ Hb), (bind_rand_Ok _ _ _ _ _ Hbs). done.
Qed.

Lemma for_each_rand_inv {A B} (body : A → Rand G B) (l : list A) (g g' : G)
    (bs : list B) :
  for_each_rand body l g = Ok (bs, g') →
  Forall2 (λ a b, ∃ ga gb, body a ga = Ok (b, gb)) l bs.
Proof.
  revert g bs. induction l as [|a l IH]; intros g bs Hrun; simpl in Hrun.
  - injection Hrun as <- _. constructor.
  - apply bind_rand_inv in Hrun as (b & g1 & Hb & Hrun).
    apply bind_rand_inv in Hrun as (bs' & g2 & Hbs & Hrun).
    injection Hrun as <- ->. constructor; [by exists g, g1 | by eapply IH].
Qed.

(** What one line consists of. *)
Lemma edge_line_inv (transition : RushState → Z → RushState) (is_clearway : list Z)
    (base_width clearway_width : Q) (idx : nat) (e : EdgeRecord) (base_cost : Q)
    (g g' : G) (line : EdgeLine) :
  edge_line transition is_clearway base_width clearway_width idx e base_cost g
    = Ok (line, g') →
  ∃ costs flag,
    travel_costs_of transition base_cost g = Ok (costs, g') ∧
    is_clearway !! idx = Some flag ∧
    line = mkLine (src e) (dst e) costs base_width
             (if flag =? 0 then base_width else clearway_width) (distance e).
Proof.
  unfold edge_line. intros (costs & g1 & Hcosts & Hrun)%bind_rand_inv.
  apply bind_rand_inv in Hrun as (flag & g2 & Hflag & Hrun).
  unfold lift_except, list_get in Hflag.
  destruct (is_clearway !! idx) as [flag'|] eqn:Hlookup; [|done].
  injection Hflag as -> ->. injection Hrun as <- <-.
  exists costs, flag. split_and!; [done|done|].
  unfold edge_widths. by destruct (flag =? 0).
Qed.

(** What the file consists of. *)
Lemma write_edges_with_inv (transition : RushState → Z → RushState)
    (base_cost_of : EdgeRecord → Rand G Q) (edges : list EdgeRecord)
    (base_width clearway_width : Q) (density clearway_pct : Z) (g g' : G)
    (file : EdgesFile) :
  write_edges_with transition base_cost_of edges base_width clearway_width
    density clearway_pct g = Ok (file, g') →
  ∃ is_clearway g1,
    clearway_flags (length edges) clearway_pct g = Ok (is_clearway, g1) ∧
    arrival_line file = ARRIVAL_SERIES ∧ width_line file = WIDTH_SERIES ∧
    Forall2 (λ ie line, ∃ ga base_cost gb gc,
        base_cost_of ie.2 ga = Ok (base_cost, gb) ∧
        edge_line transition is_clearway base_width clearway_width
          ie.1 ie.2 base_cost gb = Ok (line, gc))
      (imap pair edges) (edge_lines file).
Proof.
  unfold write_edges_with. intros Hrun.
  apply bind_rand_inv in Hrun as ([] & g0 & _ & Hrun).
  apply bind_rand_inv in Hrun as (scores & g1 & _ & Hrun).
  apply bind_rand_inv in Hrun as ([] & g2 & Hseed & Hrun).
  apply bind_rand_inv in Hrun as (is_clearway & g3 & Hflags & Hrun).
  apply bind_rand_inv in Hrun as (lines & g4 & Hlines & Hrun).
  injection Hrun as <- <-. injection Hseed as <-.
  exists is_clearway, g3. split_and!; [exact Hflags|done|done|].
  apply for_each_rand_inv in Hlines. simpl.
  eapply Forall2_impl; [exact Hlines|]. intros [idx e] line (ga & gc & Hbody).
  apply bind_rand_inv in Hbody as (base_cost & gb & Hbase & Hline).
  by exists ga, base_cost, gb, gc.
Qed.

(** The same, line by line. *)
Lemma write_edges_with_line (transition : RushState → Z → RushState)
    (base_cost_of : EdgeRecord → Rand G Q) (edges : list EdgeRecord)
    (base_width clearway_width : Q) (density clearway_pct : Z) (g g' : G)
    (file : EdgesFile) :
  write_edges_with transition base_cost_of edges base_width clearway_width
    density clearway_pct g = Ok (file, g') →
  ∃ is_clearway g1,
    clearway_flags (length edges) clearway_pct g = Ok (is_clearway, g1) ∧
    arrival_line file = ARRIVAL_SERIES ∧ width_line file = WIDTH_SERIES ∧
    length (edge_lines file) = length edges ∧
    ∀ idx e line, edges !! idx = Some e → edge_lines file !! idx = Some line →
      ∃ ga base_cost gb gc costs flag,
        base_cost_of e ga = Ok (base_cost, gb) ∧
        travel_costs_of transition base_cost gb = Ok (costs, gc) ∧
        is_clearway !! idx = Some flag ∧
        line = mkLine (src e) (dst e) costs base_width
                 (if flag =? 0 then base_width else clearway_width) (distance e).
Proof.
  intros (is_clearway & g1 & Hflags & Harr & Hwid & Hlines)%write_edges_with_inv.
  exists is_clearway, g1. split_and!; [done|done|done| |].
  - apply Forall2_length in Hlines. by rewrite length_imap in Hlines.
  - intros idx e line He Hline.
    assert (Hie : imap pair edges !! idx = Some (idx, e))
      by (by rewrite list_lookup_imap, He).
    destruct (Forall2_lookup_lr _ _ _ _ _ _ Hlines Hie Hline)
      as (ga & base_cost & gb & gc & Hbase & Hrun).
    apply edge_line_inv in Hrun as (costs & flag & Hcosts & Hflag & ->).
    by exists ga, base_cost, gb, gc, costs, flag.
Qed.

(** [write_edges] returns whenever the base cost of every edge is
    computed, and then the base cost has the property it is computed with. *)
Lemma write_edges_with_total (transition : RushState → Z → RushState)
    (base_cost_of : EdgeRecord → Rand G Q) (P : EdgeRecord → Q → Prop)
    (edges : list EdgeRecord) (base_width clearway_width : Q)
    (density clearway_pct : Z) (g : G) :
  (∀ base_cost g, ∃ costs g', travel_costs_of transition base_cost g = Ok (costs, g')) →
  (∀ e g, e ∈ edges → ∃ base_cost g',
      base_cost_of e g = Ok (base_cost, g') ∧ P e base_cost) →
  ∃ file g',
    write_edges_with transition base_cost_of edges base_width clearway_width
      density clearway_pct g = Ok (file, g') ∧
    ∀ idx e line, edges !! idx = Some e → edge_lines file !! idx = Some line →
      ∃ ga base_cost gb gc,
        base_cost_of e ga = Ok (base_cost, gb) ∧ P e base_cost ∧
        travel_costs_of transition base_cost gb = Ok (line_costs line, gc).
Proof.
  intros Hcosts Hbase. unfold write_edges_with.
  destruct (shuffle_total (percent_flags (length edges) density) (rng_seed 42))
    as (scores & g1 & Hscores & _).
  destruct (clearway_flags_total (length edges) clearway_pct g1)
    as (is_clearway & g2 & Hflags & Hlen).
  destruct (for_each_rand_total
    (λ ie : nat * EdgeRecord,
       base_cost ← base_cost_of ie.2;
       edge_line transition is_clearway base_width clearway_width ie.1 ie.2 base_cost)
    (λ ie line, ∃ ga base_cost gb gc,
       base_cost_of ie.2 ga = Ok (base_cost, gb) ∧ P ie.2 base_cost ∧
       travel_costs_of transition base_cost gb = Ok (line_costs line, gc))
    (imap pair edges) g2) as (lines & g3 & Hlines & Hall).
  { intros [idx e] ga Hin. apply elem_of_lookup_imap in Hin as (i & e' & Heq & He').
    injection Heq as -> ->. simpl.
    destruct (Hbase e' ga) as (base_cost & gb & Hb & HP);
      [by eapply list_elem_of_lookup_2|].
    destruct (Hcosts base_cost gb) as (costs & gc & Hc).
    destruct (lookup_lt_is_Some_2 is_clearway i) as [flag Hflag].
    { rewrite Hlen. by eapply lookup_lt_Some. }
    eexists _, gc. split.
    - rewrite (bind_rand_Ok _ _ _ _ _ Hb). unfold edge_line.
      rewrite (bind_rand_Ok _ _ _ _ _ Hc). unfold lift_except, list_get.
      rewrite Hflag. unfold mbind, Rand_bind. reflexivity.
    - exists ga, base_cost, gb, gc. by split_and!. }
  exists (mkFile ARRIVAL_SERIES WIDTH_SERIES lines), g3. split.
  - unfold clearway_flags in Hflags.
    unfold mbind, Rand_bind, seed in *. rewrite Hscores, Hflags, Hlines. done.
  - intros idx e line He Hline. simpl in Hline.
    assert (Hie : imap pair edges !! idx = Some (idx, e))
      by (by rewrite list_lookup_imap, He).
    exact (Forall2_lookup_lr _ _ _ _ _ _ Hall Hie Hline).
Qed.

(** The base cost of an edge: the California speed is never zero, the
    London speed is not when the configured speed is positive; the cost is
    then non-negative for a non-negative distance. *)
Lemma float_div_pos (a b : Q) :
  (0 < b)%Q → float_div a b = Ok (a / b)%Q ∧ ((0 <= a)%Q → (0 <= a / b)%Q).
Proof.
  intros Hb. unfold float_div. split.
  - destruct (Qeq_bool b 0) eqn:Heq; [|done]. apply Qeq_bool_iff in Heq.
    rewrite Heq in Hb. by apply Qlt_irrefl in Hb.
  - intros Ha. apply Qle_shift_div_l; [done|]. by rewrite Qmult_0_l.
Qed.

Lemma california_base_cost (e : EdgeRecord) (g : G) :
  ∃ base_cost g', California.base_cost_of e g = Ok (base_cost, g') ∧
    ((0 <= distance e)%Q → (0 <= base_cost)%Q).
Proof.
  unfold California.base_cost_of.
  destruct (uniform_range 20 25 g) as (mph & g' & Hmph & Hlo & Hhi); [done|].
  assert (Hpos : (0 < mph * (160934 # 100000) / 60)%Q).
  { apply Qlt_shift_div_l; [done|]. lra. }
  destruct (float_div_pos (distance e) _ Hpos) as [Hdiv Hnonneg].
  eexists _, g'. split; [|exact Hnonneg].
  rewrite (bind_rand_Ok _ _ _ _ _ Hmph). unfold lift_except. by rewrite Hdiv.
Qed.

Lemma london_base_cost (speed : Q) (e : EdgeRecord) (g : G) :
  (0 < speed)%Q →
  ∃ base_cost g', London.base_cost_of speed e g = Ok (base_cost, g') ∧
    ((0 <= distance e)%Q → (0 <= base_cost)%Q).
Proof.
  intros Hspeed. unfold London.base_cost_of.
  destruct (uniform_range (8 # 10) (12 # 10) g) as (m & g' & Hm & Hlo & Hhi); [done|].
  assert (Hpos : (0 < speed * m)%Q) by nra.
  destruct (float_div_pos (distance e) _ Hpos) as [Hdiv Hnonneg].
  eexists _, g'. split; [|exact Hnonneg].
  rewrite (bind_rand_Ok _ _ _ _ _ Hm). unfold lift_except. by rewrite Hdiv.
Qed.

End edge_loop.

(** ** Rush pricing *)

Section rush_pricing.
Import TimeGrid Synthesis.

(** The cost of each arrival point, spelled out: positions 0 to 3 in the
    morning window and 0 to 4 in the evening window are raised; midnight
    and the end point of each window cost the base cost. *)
Lemma point_cost_table (base_cost c : Q) :
  (point_cost base_cost 0 c ↔ c = base_cost) ∧
  (point_cost base_cost 450 c ↔ raised_cost base_cost 0 c) ∧
  (point_cost base_cost 480 c ↔ raised_cost base_cost 1 c) ∧
  (point_cost base_cost 510 c ↔ raised_cost base_cost 2 c) ∧
  (point_cost base_cost 540 c ↔ raised_cost base_cost 3 c) ∧
  (point_cost base_cost 570 c ↔ c = base_cost) ∧
  (point_cost base_cost 960 c ↔ raised_cost base_cost 0 c) ∧
  (point_cost base_cost 990 c ↔ raised_cost base_cost 1 c) ∧
  (point_cost base_cost 1020 c ↔ raised_cost base_cost 2 c) ∧
  (point_cost base_cost 1050 c ↔ raised_cost base_cost 3 c) ∧
  (point_cost base_cost 1080 c ↔ raised_cost base_cost 4 c) ∧
  (point_cost base_cost 1110 c ↔ c = base_cost).
Proof. repeat split; intros Hc; exact Hc. Qed.

Lemma raised_cost_table (base_cost c : Q) :
  (∀ p, p = 0 ∨ p = 4 →
     raised_cost base_cost p c ↔
     ∃ m, (10 # 100 <= m)%Q ∧ (m <= 15 # 100)%Q ∧ c = (base_cost + base_cost * m)%Q) ∧
  (∀ p, p = 1 ∨ p = 3 →
     raised_cost base_cost p c ↔
     ∃ m, (20 # 100 <= m)%Q ∧ (m <= 25 # 100)%Q ∧ c = (base_cost + base_cost * m)%Q) ∧
  (raised_cost base_cost 2 c ↔
     ∃ m, (30 # 100 <= m)%Q ∧ (m <= 40 # 100)%Q ∧ c = (base_cost + base_cost * m)%Q).
Proof.
  split_and!.
  - by intros p [-> | ->].
  - by intros p [-> | ->].
  - done.
Qed.

(** C1 (amended): every arrival point inside a rush window, the end point
    excluded, costs [base + base * m] with [m] in the range of its position
    [(t - start) // 30]; every other arrival point, among them the end
    point of each window (570 and 1110), costs the base cost.  This holds
    for the cost scan of both converters, from any base cost and generator
    state, and for every line either [write_edges] writes. *)
Theorem rush_costs_by_position {G : Type} `{PyRandomLaws G}
    (edges : list EdgeRecord) (base_width rush_width clearway_width : Q)
    (density clearway_pct : Z) (speed : Q) (g : G) :
  (∀ base_cost g0, ∃ costs g1,
     travel_costs_of California.transition base_cost g0 = Ok (costs, g1) ∧
     travel_costs_of London.transition base_cost g0 = Ok (costs, g1) ∧
     Forall2 (point_cost base_cost) ARRIVAL_SERIES costs) ∧
  (∀ file g',
     California.write_edges edges base_width rush_width clearway_width
       density clearway_pct g = Ok (file, g') →
     rush_pricing_holds California.base_cost_of edges file) ∧
  (∀ file g',
     London.write_edges edges base_width rush_width clearway_width
       density clearway_pct speed g = Ok (file, g') →
     rush_pricing_holds (London.base_cost_of speed) edges file).
Proof.
  split_and!.
  - intros base_cost g0.
    destruct (travel_costs_default base_cost g0) as (costs & g1 & Hca & Hldn & _ & Hall).
    by exists costs, g1.
  - intros file g' Hrun idx e line He Hline.
    unfold California.write_edges, London.write_edges in Hrun.
    apply write_edges_with_line in Hrun as (flags & g1 & _ & _ & _ & _ & Hlines).
    destruct (Hlines idx e line He Hline)
      as (ga & base_cost & gb & gc & costs & flag & Hbase & Hcosts & _ & ->).
    exists ga, base_cost, gb. split; [done|]. simpl.
    destruct (travel_costs_default base_cost gb) as (costs' & g2 & Hca & _ & _ & Hall).
    rewrite Hcosts in Hca. by injection Hca as -> _.
  - intros file g' Hrun idx e line He Hline.
    unfold California.write_edges, London.write_edges in Hrun.
    apply write_edges_with_line in Hrun as (flags & g1 & _ & _ & _ & _ & Hlines).
    destruct (Hlines idx e line He Hline)
      as (ga & base_cost & gb & gc & costs & flag & Hbase & Hcosts & _ & ->).
    exists ga, base_cost, gb. split; [done|]. simpl.
    destruct (travel_costs_default base_cost gb) as (costs' & g2 & _ & Hldn & _ & Hall).
    rewrite Hcosts in Hldn. by injection Hldn as -> _.
Qed.

(** The theorem on the concrete generator: the scan from base cost 1. *)
Lemma rush_costs_by_position_witness :
  ∃ costs g1,
    travel_costs_of (G:=Z) California.transition 1 0 = Ok (costs, g1) ∧
    Forall2 (point_cost 1) ARRIVAL_SERIES costs.
Proof.
  destruct (rush_costs_by_position (G:=Z) [mkEdge 0 1 5] DEFAULT_BASE_WIDTH
              DEFAULT_RUSH_WIDTH CLEARWAY_RUSH_WIDTH DENSITY CLEARWAY_PERCENTAGE
              DEFAULT_SPEED 0) as [Hscan _].
  destruct (Hscan 1%Q 0) as (costs & g1 & Hca & _ & Hall).
  by exists costs, g1.
Defined.

(** C1 as stated fails: at the end of the morning window, minute 570, which
    the claim places in the window at position 4, the California converter
    charges exactly the base cost, and no multiplier of [0.10, 0.15] gives
    that cost. *)
Lemma morning_window_end_costs_base :
  ∃ base_cost g1 costs g2,
    California.base_cost_of (G:=Z) (mkEdge 0 1 5) (rng_seed 123) = Ok (base_cost, g1) ∧
    travel_costs_of California.transition base_cost g1 = Ok (costs, g2) ∧
    ARRIVAL_SERIES !! 5%nat = Some 570 ∧
    closed_window 570 = Some (450, 570) ∧
    (570 - 450) / 30 = 4 ∧
    costs !! 5%nat = Some base_cost ∧
    ¬ ∃ m, (10 # 100 <= m)%Q ∧ (m <= 15 # 100)%Q ∧
           (base_cost == base_cost + base_cost * m)%Q.
Proof.
  eexists _, _, _, _. split; [vm_compute; reflexivity|].
  split; [vm_compute; reflexivity|].
  split; [vm_compute; reflexivity|].
  split; [vm_compute; reflexivity|].
  split; [reflexivity|].
  split; [vm_compute; reflexivity|].
  intros (m & Hlo & Hhi & Heq). lra.
Qed.
End rush_pricing.

(** ** Widths *)

Section widths.
Import TimeGrid Synthesis.

(** C5 (amended): in the file either converter writes, the line of an edge
    classified clearway has the configured base width and, as rush width,
    the configured clearway width, which is at least the base width
    whenever the configuration has it so (as the defaults 3.5 and 4.5 do);
    the line of any other edge has the base width as both widths. *)
Theorem clearway_widths {G : Type} `{PyRandom G}
    (edges : list EdgeRecord) (base_width rush_width clearway_width : Q)
    (density clearway_pct : Z) (speed : Q) (g g' : G) (file : EdgesFile) :
  California.write_edges edges base_width rush_width clearway_width
    density clearway_pct g = Ok (file, g') ∨
  London.write_edges edges base_width rush_width clearway_width
    density clearway_pct speed g = Ok (file, g') →
  ∃ is_clearway g1,
    clearway_flags (length edges) clearway_pct g = Ok (is_clearway, g1) ∧
    length (edge_lines file) = length edges ∧
    ∀ idx e line, edges !! idx = Some e → edge_lines file !! idx = Some line →
      ∃ flag, is_clearway !! idx = Some flag ∧
        line_base_width line = base_width ∧
        (flag ≠ 0 →
           line_rush_width line = clearway_width ∧
           ((base_width <= clearway_width)%Q →
            (line_base_width line <= line_rush_width line)%Q)) ∧
        (flag = 0 → line_rush_width line = line_base_width line).
Proof.
  unfold California.write_edges, London.write_edges.
  intros [Hrun|Hrun];
    apply write_edges_with_line in Hrun
      as (is_clearway & g1 & Hflags & _ & _ & Hlen & Hlines);
    exists is_clearway, g1; (split; [exact Hflags|]); (split; [exact Hlen|]);
    intros idx e line He Hline;
    destruct (Hlines idx e line He Hline)
      as (ga & base_cost & gb & gc & costs & flag & _ & _ & Hflag & ->);
    exists flag; simpl; (split; [exact Hflag|]); (split; [reflexivity|]);
    split.
  all: try (intros Hclear; apply Z.eqb_neq in Hclear; rewrite Hclear; by split).
  all: intros ->; reflexivity.
Qed.

(** The defaults order the two widths as the clearway model intends. *)
Lemma default_clearway_width_wider :
  (DEFAULT_BASE_WIDTH <= CLEARWAY_RUSH_WIDTH)%Q.
Proof. unfold DEFAULT_BASE_WIDTH, CLEARWAY_RUSH_WIDTH. lra. Qed.

(** The theorem on the default configuration and the concrete generator. *)
Lemma clearway_widths_witness :
  ∃ (file : EdgesFile) (g' : Z) is_clearway g1,
    California.write_edges (G:=Z) [mkEdge 0 1 5; mkEdge 1 0 3]
      DEFAULT_BASE_WIDTH DEFAULT_RUSH_WIDTH CLEARWAY_RUSH_WIDTH
      DENSITY CLEARWAY_PERCENTAGE 0 = Ok (file, g') ∧
    clearway_flags 2 CLEARWAY_PERCENTAGE 0 = Ok (is_clearway, g1) ∧
    length (edge_lines file) = 2%nat.
Proof.
  destruct (California.write_edges (G:=Z) [mkEdge 0 1 5; mkEdge 1 0 3]
              DEFAULT_BASE_WIDTH DEFAULT_RUSH_WIDTH CLEARWAY_RUSH_WIDTH
              DENSITY CLEARWAY_PERCENTAGE 0) as [[file g']|err] eqn:Hrun;
    [|vm_compute in Hrun; discriminate].
  destruct (clearway_widths (G:=Z) [mkEdge 0 1 5; mkEdge 1 0 3]
              DEFAULT_BASE_WIDTH DEFAULT_RUSH_WIDTH CLEARWAY_RUSH_WIDTH
              DENSITY CLEARWAY_PERCENTAGE DEFAULT_SPEED 0 g' file (or_introl Hrun))
    as (is_clearway & g1 & Hflags & Hlen & _).
  by exists file, g', is_clearway, g1.
Defined.

(** C5 as stated fails for a configuration whose clearway width is below
    its base width: with base width 3.5, clearway width 2 and every edge a
    clearway (100 percent), the line has rush width 2, below 3.5. *)
Lemma clearway_narrower_than_base :
  ∃ (file : EdgesFile) (g' g1 : Z) line,
    California.write_edges (G:=Z) [mkEdge 0 1 5] DEFAULT_BASE_WIDTH
      DEFAULT_RUSH_WIDTH 2 DENSITY 100 0 = Ok (file, g') ∧
    clearway_flags 1 100 0 = Ok ([1], g1) ∧
    edge_lines file = [line] ∧
    line_base_width line = DEFAULT_BASE_WIDTH ∧
    line_rush_width line = 2%Q ∧
    ¬ (line_base_width line <= line_rush_width line)%Q.
Proof.
  eexists _, _, _, _. split; [vm_compute; reflexivity|].
  split; [vm_compute; reflexivity|].
  split; [reflexivity|]. split; [reflexivity|]. split; [reflexivity|].
  simpl. lra.
Qed.
End widths.

(** ** Cost floor *)

Section floor.
Import TimeGrid Synthesis.

Lemma raised_cost_floor (base_cost : Q) (position : Z) (c : Q) :
  (0 <= base_cost)%Q → raised_cost base_cost position c → (base_cost <= c)%Q.
Proof.
  intros Hbase. unfold raised_cost, multiplier_range.
  destruct ((position =? 0) || (position =? 4));
    [intros (m & Hlo & Hhi & ->); nra|].
  destruct ((position =? 1) || (position =? 3));
    [intros (m & Hlo & Hhi & ->); nra|].
  destruct (position =? 2); [intros (m & Hlo & Hhi & ->); nra|].
  intros ->. lra.
Qed.

Lemma point_cost_floor (base_cost : Q) (time : Z) (c : Q) :
  (0 <= base_cost)%Q → point_cost base_cost time c → (base_cost <= c)%Q.
Proof.
  intros Hbase. unfold point_cost. destruct (active_window time) as [w|].
  - by apply raised_cost_floor.
  - intros ->. lra.
Qed.

Section with_generator.
Context {G : Type} `{PyRandomLaws G}.

(** The floor under every line, for a converter whose base cost is computed
    and non-negative on every edge. *)
Lemma write_edges_with_floor (transition : RushState → Z → RushState)
    (base_cost_of : EdgeRecord → Rand G Q) (edges : list EdgeRecord)
    (base_width clearway_width : Q) (density clearway_pct : Z) (g : G) :
  (∀ base_cost g0, ∃ costs g1,
     travel_costs_of transition base_cost g0 = Ok (costs, g1) ∧
     length costs = length ARRIVAL_SERIES ∧
     Forall2 (point_cost base_cost) ARRIVAL_SERIES costs) →
  (∀ e g0, e ∈ edges → ∃ base_cost g1,
     base_cost_of e g0 = Ok (base_cost, g1) ∧ (0 <= base_cost)%Q) →
  ∃ file g',
    write_edges_with transition base_cost_of edges base_width clearway_width
      density clearway_pct g = Ok (file, g') ∧
    cost_floor_holds base_cost_of edges file.
Proof.
  intros Hscan Hbase.
  destruct (write_edges_with_total transition base_cost_of
    (λ _ base_cost, (0 <= base_cost)%Q) edges base_width clearway_width
    density clearway_pct g) as (file & g' & Hrun & Hlines).
  { intros base_cost g0. destruct (Hscan base_cost g0) as (costs & g1 & Hc & _).
    by exists costs, g1. }
  { exact Hbase. }
  exists file, g'. split; [exact Hrun|].
  destruct (write_edges_with_line _ _ _ _ _ _ _ _ _ _ Hrun)
    as (_ & _ & _ & Harr & _ & Hlen & _).
  split; [exact Harr|]. split; [exact Hlen|]. intros idx e line He Hline.
  destruct (Hlines idx e line He Hline) as (ga & base_cost & gb & gc & Hb & Hpos & Hc).
  exists ga, base_cost, gb. rewrite Harr.
  destruct (Hscan base_cost gb) as (costs & g1 & Hc' & Hlen' & Hall).
  rewrite Hc in Hc'. injection Hc' as <- _.
  split_and!; [done|done|done|].
  apply Forall_forall. intros c [i Hi]%list_elem_of_lookup.
  destruct (Forall2_lookup_r _ _ _ _ _ Hall Hi) as (t & _ & Hcost).
  by eapply point_cost_floor.
Qed.
End with_generator.

(** C6 (amended): for edges of non-negative distance the California
    converter always writes the file, and so does the London converter when
    the configured speed is positive; every line then has one cost per
    arrival point, in the order of the points, and no cost is below the
    base cost computed for the edge. *)
Theorem write_edges_cost_floor {G : Type} `{PyRandomLaws G}
    (edges : list EdgeRecord) (base_width rush_width clearway_width : Q)
    (density clearway_pct : Z) (speed : Q) (g : G) :
  Forall (λ e, (0 <= distance e)%Q) edges →
  (∃ file g',
     California.write_edges edges base_width rush_width clearway_width
       density clearway_pct g = Ok (file, g') ∧
     cost_floor_holds California.base_cost_of edges file) ∧
  ((0 < speed)%Q →
   ∃ file g',
     London.write_edges edges base_width rush_width clearway_width
       density clearway_pct speed g = Ok (file, g') ∧
     cost_floor_holds (London.base_cost_of speed) edges file).
Proof.
  intros Hdist. rewrite Forall_forall in Hdist. split.
  - apply write_edges_with_floor.
    + intros base_cost g0.
      destruct (travel_costs_default base_cost g0) as (costs & g1 & Hca & _ & Hlen & Hall).
      by exists costs, g1.
    + intros e g0 He. destruct (california_base_cost e g0) as (b & g1 & Hb & Hpos).
      exists b, g1. split; [done|]. by apply Hpos, Hdist.
  - intros Hspeed. apply write_edges_with_floor.
    + intros base_cost g0.
      destruct (travel_costs_default base_cost g0) as (costs & g1 & _ & Hldn & Hlen & Hall).
      by exists costs, g1.
    + intros e g0 He. destruct (london_base_cost speed e g0 Hspeed) as (b & g1 & Hb & Hpos).
      exists b, g1. split; [done|]. by apply Hpos, Hdist.
Qed.

(** The theorem on one edge of length 5 and the default configuration. *)
Lemma write_edges_cost_floor_witness :
  Forall (λ e, (0 <= distance e)%Q) [mkEdge 0 1 5] ∧
  (0 < DEFAULT_SPEED)%Q ∧
  ∃ (file : EdgesFile) (g' : Z),
    London.write_edges (G:=Z) [mkEdge 0 1 5] DEFAULT_BASE_WIDTH
      DEFAULT_RUSH_WIDTH CLEARWAY_RUSH_WIDTH DENSITY CLEARWAY_PERCENTAGE
      DEFAULT_SPEED 0 = Ok (file, g') ∧
    cost_floor_holds (London.base_cost_of DEFAULT_SPEED) [mkEdge 0 1 5] file.
Proof.
  assert (Hdist : Forall (λ e, (0 <= distance e)%Q) [mkEdge 0 1 5])
    by (repeat constructor; done).
  assert (Hspeed : (0 < DEFAULT_SPEED)%Q) by done.
  split; [exact Hdist|]. split; [exact Hspeed|].
  exact (proj2 (write_edges_cost_floor (G:=Z) [mkEdge 0 1 5] DEFAULT_BASE_WIDTH
                  DEFAULT_RUSH_WIDTH CLEARWAY_RUSH_WIDTH DENSITY
                  CLEARWAY_PERCENTAGE DEFAULT_SPEED 0 Hdist) Hspeed).
Defined.

(** C6 as stated fails in the London converter for a negative configured
    speed: with speed -100 the base cost of an edge of length 100 is
    negative, and the cost at minute 450 is below it. *)
Lemma negative_speed_breaks_floor :
  ∃ (file : EdgesFile) (g' : Z) line base_cost g1 g2 c,
    (0 <= distance (mkEdge 0 1 100))%Q ∧
    London.write_edges (G:=Z) [mkEdge 0 1 100] DEFAULT_BASE_WIDTH
      DEFAULT_RUSH_WIDTH CLEARWAY_RUSH_WIDTH DENSITY CLEARWAY_PERCENTAGE
      (-100) 0 = Ok (file, g') ∧
    edge_lines file = [line] ∧
    London.base_cost_of (-100) (mkEdge 0 1 100) (rng_seed 123) = Ok (base_cost, g1) ∧
    travel_costs_of London.transition base_cost g1 = Ok (line_costs line, g2) ∧
    line_costs line !! 1%nat = Some c ∧
    (c < base_cost)%Q.
Proof.
  eexists _, _, _, _, _, _, _. split; [done|].
  split; [vm_compute; reflexivity|].
  split; [reflexivity|].
  split; [vm_compute; reflexivity|].
  split; [vm_compute; reflexivity|].
  split; [reflexivity|].
  vm_compute. reflexivity.
Qed.

(** With speed 0 the London converter raises instead of writing. *)
Lemma zero_speed_raises :
  London.write_edges (G:=Z) [mkEdge 0 1 100] DEFAULT_BASE_WIDTH
    DEFAULT_RUSH_WIDTH CLEARWAY_RUSH_WIDTH DENSITY CLEARWAY_PERCENTAGE
    0 0 = Raise ZeroDivisionError.
Proof. vm_compute. reflexivity. Qed.
End floor.

(** ** Determinism *)

Section determinism.
Import Synthesis.

(** C10: the content [write_edges] produces does not depend on the state
    the generator is in when it is called: the first thing it does with the
    generator is to seed it with 42, the clearway shuffle follows the seed
    123, and every later draw continues from there.  Two runs on the same
    edges and configuration are therefore identical. *)
Theorem write_edges_deterministic {G : Type} `{PyRandom G}
    (edges : list EdgeRecord) (base_width rush_width clearway_width : Q)
    (density clearway_pct : Z) (speed : Q) (g1 g2 : G) :
  California.write_edges edges base_width rush_width clearway_width
    density clearway_pct g1 =
  California.write_edges edges base_width rush_width clearway_width
    density clearway_pct g2 ∧
  London.write_edges edges base_width rush_width clearway_width
    density clearway_pct speed g1 =
  London.write_edges edges base_width rush_width clearway_width
    density clearway_pct speed g2 ∧
  clearway_flags (length edges) clearway_pct g1 =
  clearway_flags (length edges) clearway_pct g2.
Proof. split_and!; reflexivity. Qed.

(** A loop that draws without seeding does depend on the state it starts
    in: the seeding is what makes the file reproducible. *)
Lemma unseeded_draws_depend_on_state :
  travel_costs_of (G:=Z) California.transition 1 0 ≠
  travel_costs_of (G:=Z) California.transition 1 1.
Proof. vm_compute. discriminate. Qed.
End determinism.

(** * Further properties of the converters *)

(** ** The time grid for any table of windows *)

Section time_grid_general.
Import TimeGrid.

Lemma window_points_elem (w : Z * Z) (t : Z) :
  t ∈ window_points w ↔ ∃ k, 0 ≤ k ∧ t = w.1 + 30 * k ∧ t ≤ w.2.
Proof.
  unfold window_points. rewrite list_elem_of_filter, elem_of_seqZ. split.
  - intros [Hmod Hrange]. exists ((t - w.1) / 30).
    pose proof (Z.div_mod (t - w.1) 30 ltac:(lia)) as Hdiv.
    split_and!; [apply Z.div_pos; lia | lia | lia].
  - intros (k & Hk & -> & Hle). split; [|lia].
    replace (w.1 + 30 * k - w.1) with (k * 30) by lia. apply Z.mod_mul. lia.
Qed.

Lemma window_points_length (w : Z * Z) :
  length (window_points w) = Z.to_nat ((w.2 - w.1 + 30) / 30).
Proof.
  destruct w as [start end_]. simpl.
  remember (Z.to_nat (end_ + 1 - start)) as n eqn:Hn.
  revert start Hn. induction (lt_wf n) as [n _ IH]. intros start Hn.
  destruct (decide (start ≤ end_)) as [Hle|Hgt].
  - rewrite window_points_unfold by done. simpl.
    rewrite (IH (Z.to_nat (end_ + 1 - (start + 30)))) by lia.
    replace (end_ - start + 30) with (end_ - (start + 30) + 30 + 1 * 30) by lia.
    rewrite Z.div_add by lia.
    assert (0 ≤ (end_ - (start + 30) + 30) / 30) by (apply Z.div_pos; lia).
    lia.
  - rewrite window_points_empty by lia. simpl.
    assert ((end_ - start + 30) / 30 ≤ 0); [|lia].
    apply Z.lt_succ_r, Z.div_lt_upper_bound; lia.
Qed.

(** X1: for every table of windows the builder returns, it holds 0 and
    exactly the minutes [start + 30 * k] up to [end] of the windows, and its
    length is one more than the number of such minutes; a window that ends
    before it starts adds nothing. *)
Theorem time_grid_any_windows (windows : list (Z * Z)) :
  (∀ t, t ∈ generate_time_series_of windows ↔
     t = 0 ∨ ∃ w k, w ∈ windows ∧ 0 ≤ k ∧ t = w.1 + 30 * k ∧ t ≤ w.2) ∧
  length (generate_time_series_of windows) =
    S (sum_list_with (λ w : Z * Z, Z.to_nat ((w.2 - w.1 + 30) / 30)) windows).
Proof.
  rewrite generate_time_series_of_windows. unfold grid_of_windows. split.
  - intros t. simpl. rewrite elem_of_cons. split.
    + intros [->|Hin]; [by left|]. right.
      apply list_elem_of_In, in_concat in Hin as (pts & Hpts & Ht).
      apply list_elem_of_In, list_elem_of_fmap in Hpts as (w & -> & Hw).
      apply list_elem_of_In, window_points_elem in Ht as (k & Hk).
      by exists w, k.
    + intros [->|(w & k & Hw & Hk)]; [by left|]. right.
      apply list_elem_of_In, in_concat. exists (window_points w). split.
      * apply list_elem_of_In, list_elem_of_fmap. by exists w.
      * apply list_elem_of_In, window_points_elem. by exists k.
  - simpl. f_equal. induction windows as [|w ws IH]; [done|].
    rewrite fmap_cons. cbn [concat sum_list_with].
    by rewrite length_app, window_points_length, IH.
Qed.

Lemma StronglySorted_filter_lt (P : Z → Prop) `{∀ t, Decision (P t)} (l : list Z) :
  StronglySorted Z.lt l → StronglySorted Z.lt (filter P l).
Proof.
  induction 1 as [|t l Hs IH Hall]; [constructor|].
  rewrite filter_cons. destruct (decide (P t)); [|done].
  constructor; [done|]. apply Forall_forall. intros u [_ Hu]%list_elem_of_filter.
  by eapply Forall_forall in Hall.
Qed.

Lemma StronglySorted_seqZ (m n : Z) : StronglySorted Z.lt (seqZ m n).
Proof.
  destruct (decide (0 ≤ n)) as [Hn|Hn]; [|rewrite seqZ_nil by lia; constructor].
  revert m. pattern n. apply natlike_ind; [| |done].
  - intros m. rewrite seqZ_nil by lia. constructor.
  - intros k Hk IH m. rewrite seqZ_cons by lia.
    replace (Z.pred (Z.succ k)) with k by lia. constructor; [apply IH|].
    apply Forall_seqZ. intros. lia.
Qed.

Lemma windows_ordered_sorted (after : Z) (windows : list (Z * Z)) :
  windows_ordered after windows →
  StronglySorted Z.lt (concat (window_points <$> windows)) ∧
  ∀ t, t ∈ concat (window_points <$> windows) → after < t.
Proof.
  revert after. induction windows as [|w ws IH]; intros after Hord.
  - split; [constructor|]. intros t Ht. by apply elem_of_nil in Ht.
  - destruct Hord as (Hafter & Hle & Hrest). destruct (IH _ Hrest) as [Hs Hlow].
    simpl. split.
    + apply StronglySorted_app_2.
      * intros t1 t2 (k & _ & _ & Ht1)%window_points_elem Ht2%Hlow. lia.
      * apply StronglySorted_filter_lt, StronglySorted_seqZ.
      * exact Hs.
    + intros t [(k & Hk & -> & _)%window_points_elem|Ht%Hlow]%elem_of_app; lia.
Qed.

(** X2: for windows in chronological order after midnight the grid starts
    at 0 and is strictly increasing, so no minute occurs twice. *)
Theorem time_grid_strictly_increasing (windows : list (Z * Z)) :
  windows_ordered 0 windows →
  head (generate_time_series_of windows) = Some 0 ∧
  StronglySorted Z.lt (generate_time_series_of windows).
Proof.
  intros Hord. rewrite generate_time_series_of_windows. unfold grid_of_windows.
  destruct (windows_ordered_sorted 0 windows Hord) as [Hs Hlow].
  split; [done|]. simpl. constructor; [exact Hs|]. by apply Forall_forall.
Qed.

Lemma time_grid_strictly_increasing_witness :
  windows_ordered 0 RUSH_HOURS ∧
  StronglySorted Z.lt (generate_time_series_of RUSH_HOURS).
Proof.
  assert (Hord : windows_ordered 0 RUSH_HOURS) by (unfold RUSH_HOURS; simpl; lia).
  split; [exact Hord|]. exact (proj2 (time_grid_strictly_increasing RUSH_HOURS Hord)).
Defined.

(** Windows out of order give a grid that is not increasing. *)
Lemma time_grid_unordered_windows :
  ¬ StronglySorted Z.lt (generate_time_series_of [(960, 1110); (450, 570)]).
Proof.
  intros Hs. assert (Hgrid : generate_time_series_of [(960, 1110); (450, 570)] =
    [0; 960; 990; 1020; 1050; 1080; 1110; 450; 480; 510; 540; 570])
    by (vm_compute; reflexivity).
  rewrite Hgrid in Hs.
  apply StronglySorted_cons in Hs as [_ Hs]. apply StronglySorted_cons in Hs as [Hall _].
  rewrite Forall_forall in Hall. specialize (Hall 450). 
  assert (450 ∈ [990; 1020; 1050; 1080; 1110; 450; 480; 510; 540; 570]) as Hin
    by (repeat (first [by left | right])).
  specialize (Hall Hin). lia.
Qed.
End time_grid_general.

(** ** Deduplication: what it keeps and what it leaves alone *)

Section dedupe_more.
Import Dedupe.

Global Instance key_le_antisymm : AntiSymm (=) key_le.
Proof.
  intros [a1 a2] [b1 b2]. unfold key_le. simpl. intros Hab Hba.
  f_equal; lia.
Qed.

Lemma key_lt_le_sorted (l : list (Z * Z)) :
  StronglySorted key_lt l → StronglySorted key_le l.
Proof.
  induction 1 as [|a l Hs IH Hall]; constructor; [done|].
  eapply Forall_impl; [exact Hall|]. intros b. unfold key_lt, key_le. lia.
Qed.

Lemma first_shortest_elem (edges : list EdgeRecord) (k : Z * Z) (e : EdgeRecord) :
  first_shortest edges k e → e ∈ edges ∧ edge_key e = k.
Proof.
  intros (before & after & -> & Hkey & _). split; [|done].
  apply elem_of_app. right. by left.
Qed.

Lemma dedupe_edges_from_input (edges : list EdgeRecord) (e : EdgeRecord) :
  e ∈ dedupe_edges edges → e ∈ edges.
Proof.
  intros He%dedupe_edges_elem%dedupe_dict_Some%first_shortest_elem. by destruct He.
Qed.

Lemma dedupe_edges_represents (edges : list EdgeRecord) (x : EdgeRecord) :
  x ∈ edges → ∃ e, e ∈ dedupe_edges edges ∧ edge_key e = edge_key x.
Proof.
  intros Hx. destruct (dedupe_dict edges !! edge_key x) as [e|] eqn:He.
  - pose proof (dedupe_dict_key _ _ _ He) as Hkey. exists e. split; [|done].
    apply dedupe_edges_elem. by rewrite Hkey.
  - by eapply dedupe_dict_None in He.
Qed.

Lemma same_key_same_edge (edges : list EdgeRecord) (x y : EdgeRecord) :
  NoDup (edge_key <$> edges) → x ∈ edges → y ∈ edges →
  edge_key x = edge_key y → x = y.
Proof.
  induction edges as [|e edges IH]; intros Hnd Hx Hy Hkey;
    [by apply elem_of_nil in Hx|].
  rewrite fmap_cons in Hnd. apply NoDup_cons in Hnd as [Hfresh Hnd].
  apply elem_of_cons in Hx as [->|Hx]; apply elem_of_cons in Hy as [->|Hy].
  - done.
  - exfalso. apply Hfresh. rewrite Hkey. apply list_elem_of_fmap. by exists y.
  - exfalso. apply Hfresh. rewrite <- Hkey. apply list_elem_of_fmap. by exists x.
  - by apply IH.
Qed.

(** With distinct keys the dictionary holds every edge under its key. *)
Lemma dedupe_dict_distinct (edges : list EdgeRecord) (e : EdgeRecord) :
  NoDup (edge_key <$> edges) → e ∈ edges →
  dedupe_dict edges !! edge_key e = Some e.
Proof.
  intros Hnd He. destruct (dedupe_dict edges !! edge_key e) as [e'|] eqn:Hlookup.
  - apply dedupe_dict_Some, first_shortest_elem in Hlookup as [He' Hkey].
    f_equal. by apply (same_key_same_edge edges).
  - by eapply dedupe_dict_None in Hlookup.
Qed.

Lemma dedupe_dict_size (edges : list EdgeRecord) :
  (size (dedupe_dict edges) ≤ length edges)%nat.
Proof.
  induction edges as [|e edges IH] using rev_ind; [done|].
  rewrite dedupe_dict_snoc, length_app. simpl. unfold dedupe_step.
  destruct (dedupe_dict edges !! edge_key e) as [old|] eqn:Hold.
  - destruct (Qltb _ _); [|lia].
    rewrite map_size_insert_Some by (by eexists). lia.
  - rewrite map_size_insert_None by done. lia.
Qed.

Lemma dedupe_edges_length (edges : list EdgeRecord) :
  length (dedupe_edges edges) = size (dedupe_dict edges).
Proof.
  unfold dedupe_edges, sorted_keys.
  by rewrite length_fmap, merge_sort_Permutation, length_fmap, length_map_to_list.
Qed.

(** X3: the lists deduplication returns unchanged are exactly the lists
    strictly ascending by [(src, dst)]: a canonical edge list passes through
    as it is, and nothing else does. *)
Theorem dedupe_edges_fixed_points (edges : list EdgeRecord) :
  dedupe_edges edges = edges ↔ StronglySorted key_lt (edge_key <$> edges).
Proof.
  split.
  - intros Hfix. rewrite <- Hfix, dedupe_edges_keys. apply sorted_keys_strict.
  - intros Hsorted. pose proof (strictly_sorted_NoDup _ Hsorted) as Hnd.
    assert (Hkeys : sorted_keys (dedupe_dict edges) = edge_key <$> edges).
    { apply (StronglySorted_unique key_le).
      - apply StronglySorted_merge_sort; apply _.
      - by apply key_lt_le_sorted.
      - apply NoDup_Permutation; [apply strictly_sorted_NoDup, sorted_keys_strict|done|].
        intros k. rewrite sorted_keys_elem, list_elem_of_fmap. split.
        + intros [e He]. exists e.
          apply dedupe_dict_Some, first_shortest_elem in He as [He Hkey]. done.
        + intros (e & -> & He). exists e. by apply dedupe_dict_distinct. }
    unfold dedupe_edges. rewrite Hkeys, <- list_fmap_compose.
    transitivity (id <$> edges); [|apply list_fmap_id]. apply list_fmap_ext.
    intros i e He. simpl. apply lookup_total_correct.
    apply dedupe_dict_distinct; [done|]. by eapply list_elem_of_lookup_2.
Qed.

(** X4: deduplication invents no edge and never lengthens the list; it
    keeps every edge, only reordering them, exactly when no two edges share
    [(src, dst)]. *)
Theorem dedupe_edges_keeps (edges : list EdgeRecord) :
  (∀ e, e ∈ dedupe_edges edges → e ∈ edges) ∧
  (length (dedupe_edges edges) ≤ length edges)%nat ∧
  (dedupe_edges edges ≡ₚ edges ↔ NoDup (edge_key <$> edges)).
Proof.
  split_and!.
  - apply dedupe_edges_from_input.
  - rewrite dedupe_edges_length. apply dedupe_dict_size.
  - assert (Hout : NoDup (edge_key <$> dedupe_edges edges))
      by (rewrite dedupe_edges_keys; apply strictly_sorted_NoDup, sorted_keys_strict).
    split.
    + intros Hperm. by rewrite <- Hperm.
    + intros Hnd. apply NoDup_Permutation.
      * by eapply NoDup_fmap_1.
      * by eapply NoDup_fmap_1.
      * intros e. split; [apply dedupe_edges_from_input|].
        intros He. apply dedupe_edges_elem. by apply dedupe_dict_distinct.
Qed.

(** Deduplication keeps the set of endpoints. *)
Lemma dedupe_edges_endpoints (edges : list EdgeRecord) :
  London.used_ids_of (dedupe_edges edges) = London.used_ids_of edges.
Proof.
  apply set_eq. intros a. rewrite !used_ids_elem. split.
  - intros (e & He & Ha). exists e. split; [by apply dedupe_edges_from_input|done].
  - intros (x & Hx & Ha). destruct (dedupe_edges_represents edges x Hx) as (e & He & Hkey).
    exists e. split; [done|]. unfold edge_key in Hkey. injection Hkey as -> ->. done.
Qed.

(** X5: the validation of the California converter gives the same verdict
    on the deduplicated edges as on the raw ones, so a graph that passed the
    check before the deduplication still passes after it. *)
Theorem ensure_ids_contiguous_dedupe (nodes : list California.NodeRecord)
    (edges : list EdgeRecord) :
  California.ensure_ids_contiguous nodes (dedupe_edges edges) =
  California.ensure_ids_contiguous nodes edges.
Proof.
  unfold California.ensure_ids_contiguous.
  pose proof (dedupe_edges_endpoints edges) as Hends.
  unfold London.used_ids_of in Hends. by rewrite Hends.
Qed.
End dedupe_more.

(** ** Validation and the node file (California) *)

Section california_nodes.
Import California.

(** X6: on node lists without negative ids the check is exact: it returns
    normally exactly for a non-empty list whose id set is [{0, ..., N-1}] and
    whose edges end at ids of the set; and whatever it raises is a
    [ValueError]. *)
Theorem ensure_ids_contiguous_exact (nodes : list NodeRecord)
    (edges : list EdgeRecord) :
  Forall (λ n, 0 ≤ node_id n) nodes →
  (ensure_ids_contiguous nodes edges = Ok tt ↔ graph_valid nodes edges) ∧
  (∀ err, ensure_ids_contiguous nodes edges = Raise err → err = ValueError).
Proof.
  intros Hnonneg. split.
  - split; [by apply ensure_ids_contiguous_nonneg_valid
           | apply ensure_ids_contiguous_accepts_valid].
  - intros err. unfold ensure_ids_contiguous. cbv zeta.
    destruct (set_max _) as [top|err'] eqn:Htop.
    + rewrite bind_Ok. repeat case_bool_decide; congruence.
    + apply set_max_Raise in Htop as [_ ->]. simpl. congruence.
Qed.

Lemma ensure_ids_contiguous_exact_witness :
  Forall (λ n, 0 ≤ node_id n) [mkNode 1 0 0; mkNode 0 0 0] ∧
  (ensure_ids_contiguous [mkNode 1 0 0; mkNode 0 0 0] [mkEdge 0 1 1] = Ok tt ↔
   graph_valid [mkNode 1 0 0; mkNode 0 0 0] [mkEdge 0 1 1]).
Proof.
  assert (Hnonneg : Forall (λ n, 0 ≤ node_id n) [mkNode 1 0 0; mkNode 0 0 0])
    by (repeat constructor; simpl; lia).
  split; [exact Hnonneg|].
  exact (proj1 (ensure_ids_contiguous_exact _ [mkEdge 0 1 1] Hnonneg)).
Defined.

(** X7: a further record with an id that is already present, whatever its
    coordinates, does not change the verdict of the check, and the node
    file gets one more line: repeated ids are not detected. *)
Theorem ensure_ids_contiguous_repeated_id (nodes : list NodeRecord)
    (edges : list EdgeRecord) (n : NodeRecord) :
  node_id n ∈ node_id <$> nodes →
  ensure_ids_contiguous (nodes ++ [n]) edges = ensure_ids_contiguous nodes edges ∧
  length (write_nodes (nodes ++ [n])) = S (length nodes).
Proof.
  intros Hin. split.
  - unfold ensure_ids_contiguous.
    assert (Hset : (list_to_set (node_id <$> nodes ++ [n]) : gset Z) =
                   list_to_set (node_id <$> nodes)).
    { apply set_eq. intros a. rewrite !elem_of_list_to_set, fmap_app, elem_of_app.
      split; [|by left]. intros [Ha|Ha%list_elem_of_singleton]; [done|].
      by subst a. }
    by rewrite Hset.
  - unfold write_nodes, sorted_by_id. rewrite length_fmap.
    assert (Hlen : ∀ l acc, length (foldl (λ acc n, insert_by_id n acc) acc l)
                            = (length acc + length l)%nat).
    { induction l as [|m l IH]; intros acc; simpl; [lia|].
      rewrite IH. assert (length (insert_by_id m acc) = S (length acc)); [|lia].
      induction acc as [|a acc IHacc]; [done|]. simpl.
      destruct (decide (node_id m < node_id a)); simpl; lia. }
    rewrite Hlen, length_app. simpl. lia.
Qed.

Lemma ensure_ids_contiguous_repeated_id_witness :
  ensure_ids_contiguous ([mkNode 0 1 1; mkNode 1 2 2] ++ [mkNode 0 9 9]) [] = Ok tt ∧
  length (write_nodes ([mkNode 0 1 1; mkNode 1 2 2] ++ [mkNode 0 9 9])) = 3%nat.
Proof.
  destruct (ensure_ids_contiguous_repeated_id [mkNode 0 1 1; mkNode 1 2 2] []
              (mkNode 0 9 9)) as [Hsame Hlen].
  { simpl. by left. }
  split; [rewrite Hsame; vm_compute; reflexivity | exact Hlen].
Defined.

Lemma insert_by_id_perm (n : NodeRecord) (l : list NodeRecord) :
  insert_by_id n l ≡ₚ n :: l.
Proof.
  induction l as [|m l IH]; [done|]. simpl.
  destruct (decide (node_id n < node_id m)); [done|].
  rewrite IH. apply Permutation_swap.
Qed.

Lemma insert_by_id_sorted (n : NodeRecord) (l : list NodeRecord) :
  StronglySorted Z.le (node_id <$> l) →
  StronglySorted Z.le (node_id <$> insert_by_id n l).
Proof.
  induction l as [|m l IH]; intros Hs; [repeat constructor|].
  rewrite fmap_cons in Hs. apply StronglySorted_cons in Hs as [Hall Hs]. simpl.
  destruct (decide (node_id n < node_id m)) as [Hlt|Hge].
  - rewrite !fmap_cons. constructor.
    + constructor; done.
    + constructor; [lia|]. eapply Forall_impl; [exact Hall|]. intros; simpl in *; lia.
  - rewrite fmap_cons. constructor; [by apply IH|].
    rewrite (insert_by_id_perm n l), fmap_cons. constructor; [lia|done].
Qed.

(** The sort is stable: a node goes behind the nodes of its id. *)
Lemma insert_by_id_stable (n : NodeRecord) (l : list NodeRecord) (k : Z) :
  StronglySorted Z.le (node_id <$> l) →
  filter (λ m, node_id m = k) (insert_by_id n l) =
  filter (λ m, node_id m = k) (l ++ [n]).
Proof.
  induction l as [|m l IH]; intros Hs; [done|].
  rewrite fmap_cons in Hs. apply StronglySorted_cons in Hs as [Hall Hs].
  cbn [insert_by_id]. destruct (decide (node_id n < node_id m)) as [Hlt|Hge].
  - rewrite filter_app. destruct (decide (node_id n = k)) as [Hk|Hk].
    + rewrite (filter_cons_True _ n) by done.
      rewrite (filter_singleton_True _ n) by done.
      rewrite (filter_none _ (m :: l)); [done|].
      apply Forall_forall. intros x Hx.
      assert (node_id m ≤ node_id x); [|lia].
      apply elem_of_cons in Hx as [->|Hx]; [lia|].
      eapply Forall_forall in Hall; [exact Hall|]. apply list_elem_of_fmap. by exists x.
    + rewrite (filter_cons_False _ n) by done.
      rewrite (filter_singleton_False _ n) by done. by rewrite app_nil_r.
  - rewrite <- app_comm_cons, !(filter_cons _ m), IH by done. done.
Qed.

Lemma sorted_by_id_snoc (nodes : list NodeRecord) (n : NodeRecord) :
  sorted_by_id (nodes ++ [n]) = insert_by_id n (sorted_by_id nodes).
Proof. unfold sorted_by_id. by rewrite foldl_snoc. Qed.

Lemma sorted_by_id_spec (nodes : list NodeRecord) :
  sorted_by_id nodes ≡ₚ nodes ∧
  StronglySorted Z.le (node_id <$> sorted_by_id nodes) ∧
  ∀ k, filter (λ m, node_id m = k) (sorted_by_id nodes) =
       filter (λ m, node_id m = k) nodes.
Proof.
  induction nodes as [|n nodes (Hperm & Hsorted & Hstable)] using rev_ind.
  - split_and!; [done|constructor|done].
  - rewrite sorted_by_id_snoc. split_and!.
    + rewrite insert_by_id_perm, Hperm. apply Permutation_cons_append.
    + by apply insert_by_id_sorted.
    + intros k. rewrite insert_by_id_stable by done.
      by rewrite !filter_app, Hstable.
Qed.

(** X8: the node file of the California converter has one line per node
    record with its id and coordinates and cluster 1, the ids never
    decreasing, and the lines of one id in the order of their records. *)
Theorem write_nodes_sorted (nodes : list NodeRecord) :
  write_nodes nodes ≡ₚ (λ n, mkNodeLine (node_id n) (lat n) (lon n) 1) <$> nodes ∧
  StronglySorted Z.le (out_id <$> write_nodes nodes) ∧
  (∀ k, filter (λ line, out_id line = k) (write_nodes nodes) =
        (λ n, mkNodeLine (node_id n) (lat n) (lon n) 1) <$>
          filter (λ n, node_id n = k) nodes) ∧
  Forall (λ line, out_cluster line = 1) (write_nodes nodes).
Proof.
  destruct (sorted_by_id_spec nodes) as (Hperm & Hsorted & Hstable).
  unfold write_nodes. split_and!.
  - by rewrite Hperm.
  - by rewrite <- list_fmap_compose.
  - intros k. rewrite <- Hstable.
    generalize (sorted_by_id nodes). intros l. induction l as [|n l IH]; [done|].
    rewrite fmap_cons, !filter_cons. simpl.
    destruct (decide (node_id n = k)); by rewrite IH.
  - apply Forall_fmap, Forall_forall. done.
Qed.

Lemma key_lt_le_sorted_Z (l : list Z) :
  StronglySorted Z.lt l → StronglySorted Z.le l.
Proof.
  induction 1 as [|a l Hs IH Hall]; constructor; [done|].
  eapply Forall_impl; [exact Hall|]. intros b. lia.
Qed.

(** X9: when the check has passed and the ids are distinct and not
    negative, line [i] of the node file carries id [i]: the ids are
    [0, 1, ..., N-1] in this order, [N] the number of records. *)
Theorem write_nodes_contiguous (nodes : list NodeRecord) (edges : list EdgeRecord) :
  ensure_ids_contiguous nodes edges = Ok tt →
  Forall (λ n, 0 ≤ node_id n) nodes →
  NoDup (node_id <$> nodes) →
  out_id <$> write_nodes nodes = seqZ 0 (Z.of_nat (length nodes)).
Proof.
  intros Hok Hnonneg Hnd.
  apply ensure_ids_contiguous_nonneg_valid in Hok as (_ & Hcont & _); [|done].
  destruct (sorted_by_id_spec nodes) as (Hperm & Hsorted & _).
  assert (Hids : out_id <$> write_nodes nodes = node_id <$> sorted_by_id nodes)
    by (unfold write_nodes; by rewrite <- list_fmap_compose).
  assert (Hsize : size (list_to_set (node_id <$> nodes) : gset Z) = length nodes)
    by (by rewrite size_list_to_set, length_fmap).
  unfold ids_contiguous in Hcont. rewrite Hsize in Hcont. rewrite Hids.
  apply (StronglySorted_unique Z.le); [done| |].
  - apply key_lt_le_sorted_Z, StronglySorted_seqZ.
  - rewrite Hperm.
    apply NoDup_Permutation; [done|apply NoDup_seqZ|].
    intros a. rewrite <- (elem_of_list_to_set (C:=gset Z)), Hcont.
    by rewrite elem_of_list_to_set.
Qed.

Lemma write_nodes_contiguous_witness :
  out_id <$> write_nodes [mkNode 2 0 0; mkNode 0 1 1; mkNode 1 2 2] = [0; 1; 2].
Proof.
  apply (write_nodes_contiguous [mkNode 2 0 0; mkNode 0 1 1; mkNode 1 2 2]
           [mkEdge 0 2 1]).
  - vm_compute. reflexivity.
  - repeat constructor; simpl; lia.
  - refine (bool_decide_unpack _ _). vm_compute. exact I.
Defined.
End california_nodes.

(** ** Renumbering: any input, order, and a second run *)

Section renumber_more.
Import London.

(** The run of [renumber_nodes_contiguous] on any input. *)
Lemma renumber_run (nodes : gmap Z NodeRecord) (edges : list EdgeRecord) :
  ∃ new_nodes new_edges,
    renumber_nodes_contiguous nodes edges = Ok (new_nodes, new_edges) ∧
    (∀ j n', new_nodes !! j = Some n' ↔
       ∃ old n, nodes !! old = Some n ∧
                old_to_new_of (used_ids_of edges) !! old = Some j ∧
                n' = mkNode j (x n) (y n) (lat n) (lon n)) ∧
    Forall2 (λ e e', old_to_new_of (used_ids_of edges) !! src e = Some (src e') ∧
                     old_to_new_of (used_ids_of edges) !! dst e = Some (dst e') ∧
                     distance e' = distance e) edges new_edges.
Proof.
  destruct (renumber_nodes_loop (used_ids_of edges) (map_to_list nodes))
    as (new_nodes & Hnodes & Hlookup); [apply NoDup_fst_map_to_list|].
  destruct (renumber_edges_loop (old_to_new_of (used_ids_of edges)) edges [])
    as (new_edges & Hedges & Hall).
  { intros e He. split; apply old_to_new_dom, used_ids_elem; exists e; auto. }
  exists new_nodes, new_edges. split_and!; [| |done].
  - unfold renumber_nodes_contiguous. cbv zeta. by rewrite Hnodes, bind_Ok, Hedges.
  - intros j n'. rewrite Hlookup. split.
    + intros (old & n & Hin%elem_of_map_to_list & Hrest). by exists old, n.
    + intros (old & n & Hin%elem_of_map_to_list & Hrest). by exists old, n.
Qed.

(** X10: renumbering never raises, whatever the node map and the edges:
    it returns as many edges as it got, with their distances, and a node
    under new id [j] exactly when the raw id of rank [j] has a record, each
    carrying its new id; a referenced id without a record silently gets no
    node, so the new node count can stay below the number of referenced
    ids. *)
Theorem renumber_nodes_contiguous_total (nodes : gmap Z NodeRecord)
    (edges : list EdgeRecord) :
  ∃ new_nodes new_edges,
    renumber_nodes_contiguous nodes edges = Ok (new_nodes, new_edges) ∧
    distance <$> new_edges = distance <$> edges ∧
    (∀ j, is_Some (new_nodes !! j) ↔
       ∃ old, is_Some (nodes !! old) ∧
              old_to_new_of (used_ids_of edges) !! old = Some j) ∧
    (∀ j n', new_nodes !! j = Some n' → node_id n' = j) ∧
    (size new_nodes ≤ size (used_ids_of edges))%nat.
Proof.
  destruct (renumber_run nodes edges) as (new_nodes & new_edges & Hrun & Hnodes & Hedges).
  exists new_nodes, new_edges. split_and!; [done| | | |].
  - clear Hrun. induction Hedges as [|e e' es es' (_ & _ & Hd) _ IH]; [done|].
    rewrite !fmap_cons. by rewrite Hd, IH.
  - intros j. split.
    + intros [n' (old & n & Hn & Hj & _)%Hnodes]. exists old. split; [by eexists|done].
    + intros (old & [n Hn] & Hj). eexists. apply Hnodes. by exists old, n.
  - intros j n' (old & n & _ & _ & ->)%Hnodes. done.
  - rewrite <- size_dom.
    transitivity (size (list_to_set (seqZ 0 (Z.of_nat (size (used_ids_of edges)))) : gset Z)).
    + apply subseteq_size. intros j [n' (old & n & _ & Hj & _)%Hnodes]%elem_of_dom.
      apply old_to_new_range in Hj. apply elem_of_list_to_set, elem_of_seqZ. lia.
    + rewrite size_list_to_set by apply NoDup_seqZ. rewrite length_seqZ. lia.
Qed.

(** An edge whose endpoint has no record: the edge is kept and renumbered,
    the node map stays empty. *)
Lemma renumber_without_records :
  renumber_nodes_contiguous ∅ [mkEdge 7 3 1] = Ok (∅, [mkEdge 1 0 1]).
Proof. vm_compute. reflexivity. Qed.

Lemma Forall2_sorted {A B} (R : A → B → Prop) (P : relation A) (P' : relation B)
    (l : list A) (k : list B) :
  (∀ a b a' b', R a a' → R b b' → P a b → P' a' b') →
  Forall2 R l k → StronglySorted P l → StronglySorted P' k.
Proof.
  intros Himp Hall. induction Hall as [|a a' l k Ha Hall IH]; intros Hs; [constructor|].
  apply StronglySorted_cons in Hs as [Hfirst Hs]. constructor; [by apply IH|].
  apply Forall_forall. intros b' [i Hi]%list_elem_of_lookup.
  destruct (Forall2_lookup_r _ _ _ _ _ Hall Hi) as (b & Hb & Hbb).
  eapply Himp; [exact Ha|exact Hbb|].
  eapply Forall_forall in Hfirst; [exact Hfirst|]. by eapply list_elem_of_lookup_2.
Qed.

(** X11: renumbering keeps the order of the edges by [(src, dst)]: a list
    strictly ascending by the raw ids, as deduplication returns it, is
    strictly ascending by the new ids, so it is still unique by
    [(src, dst)]. *)
Theorem renumber_keeps_edge_order (nodes : gmap Z NodeRecord)
    (edges : list EdgeRecord) :
  StronglySorted key_lt (edge_key <$> edges) →
  ∃ new_nodes new_edges,
    renumber_nodes_contiguous nodes edges = Ok (new_nodes, new_edges) ∧
    StronglySorted key_lt (edge_key <$> new_edges).
Proof.
  intros Hsorted.
  destruct (renumber_run nodes edges) as (new_nodes & new_edges & Hrun & _ & Hedges).
  exists new_nodes, new_edges. split; [done|].
  eapply (Forall2_sorted
    (λ k k' : Z * Z, old_to_new_of (used_ids_of edges) !! k.1 = Some k'.1 ∧
                     old_to_new_of (used_ids_of edges) !! k.2 = Some k'.2)
    key_lt key_lt (edge_key <$> edges)); [| |exact Hsorted].
  - intros [a1 a2] [b1 b2] [a1' a2'] [b1' b2']. simpl.
    intros [Ha1 Ha2] [Hb1 Hb2]. unfold key_lt. simpl.
    pose proof (old_to_new_order _ _ _ _ _ Ha1 Hb1).
    pose proof (old_to_new_order _ _ _ _ _ Ha2 Hb2).
    intros [Hlt|[-> Hlt]]; [lia|].
    rewrite Ha1 in Hb1. injection Hb1 as ->. lia.
  - apply Forall2_fmap. eapply Forall2_impl; [exact Hedges|].
    intros e e' (Hs & Hd & _). done.
Qed.

Lemma renumber_keeps_edge_order_witness :
  ∃ new_nodes new_edges,
    renumber_nodes_contiguous ∅ [mkEdge 2 9 1; mkEdge 9 5 1] = Ok (new_nodes, new_edges) ∧
    StronglySorted key_lt (edge_key <$> new_edges).
Proof.
  apply renumber_keeps_edge_order.
  repeat constructor; vm_compute; auto.
Defined.

(** The ids of a contiguous set are their own ranks. *)
Lemma old_to_new_contiguous (M : Z) (a i : Z) :
  old_to_new_of (list_to_set (seqZ 0 M)) !! a = Some i ↔ a = i ∧ 0 ≤ a < M.
Proof.
  assert (Hsorted : sorted_ids (list_to_set (seqZ 0 M)) = seqZ 0 M).
  { apply (StronglySorted_unique Z.le).
    - apply sorted_ids_sorted.
    - apply key_lt_le_sorted_Z, StronglySorted_seqZ.
    - apply NoDup_Permutation; [apply sorted_ids_NoDup|apply NoDup_seqZ|].
      intros b. by rewrite sorted_ids_elem, elem_of_list_to_set. }
  rewrite old_to_new_lookup, Hsorted. split.
  - intros (n & -> & [-> Hn]%lookup_seqZ). lia.
  - intros [<- Ha]. exists (Z.to_nat a). split; [lia|].
    apply lookup_seqZ. lia.
Qed.

(** X12: renumbering renumbered edges changes nothing: the edges a run
    returns reference exactly the ids [0 .. M-1], and a second run, with any
    node map, returns the same edges. *)
Theorem renumber_edges_idempotent (nodes nodes' : gmap Z NodeRecord)
    (edges : list EdgeRecord) :
  ∃ new_nodes new_edges new_nodes',
    renumber_nodes_contiguous nodes edges = Ok (new_nodes, new_edges) ∧
    used_ids_of new_edges =
      list_to_set (seqZ 0 (Z.of_nat (size (used_ids_of edges)))) ∧
    renumber_nodes_contiguous nodes' new_edges = Ok (new_nodes', new_edges).
Proof.
  destruct (renumber_run nodes edges) as (new_nodes & new_edges & Hrun & _ & Hedges).
  assert (Hused : used_ids_of new_edges =
                  list_to_set (seqZ 0 (Z.of_nat (size (used_ids_of edges))))).
  { apply set_eq. intros a. rewrite used_ids_elem, elem_of_list_to_set, elem_of_seqZ.
    split.
    - intros (e' & [i Hi]%list_elem_of_lookup & Ha).
      destruct (Forall2_lookup_r _ _ _ _ _ Hedges Hi) as (e & _ & Hs & Hd & _).
      apply old_to_new_range in Hs, Hd. destruct Ha as [-> | ->]; lia.
    - intros Ha. destruct (old_to_new_onto (used_ids_of edges) a) as [old Hold]; [lia|].
      assert (Hin : old ∈ used_ids_of edges) by (apply old_to_new_dom; by eexists).
      apply used_ids_elem in Hin as (e & [i Hi]%list_elem_of_lookup & Hends).
      destruct (Forall2_lookup_l _ _ _ _ _ Hedges Hi) as (e' & He' & Hs & Hd & _).
      exists e'. split; [by eapply list_elem_of_lookup_2|].
      destruct Hends as [-> | ->]; [left|right]; congruence. }
  destruct (renumber_run nodes' new_edges)
    as (new_nodes' & new_edges' & Hrun' & _ & Hedges').
  exists new_nodes, new_edges, new_nodes'. split_and!; [done|done|].
  rewrite Hrun'. do 2 f_equal. symmetry. apply list_eq_Forall2.
  eapply Forall2_impl; [exact Hedges'|]. intros [s d w] [s' d' w']. simpl.
  rewrite Hused. intros ([-> _]%old_to_new_contiguous & [-> _]%old_to_new_contiguous & ->).
  done.
Qed.
End renumber_more.

(** ** The shuffle and the number of clearways *)

Section clearway_share.
Import Synthesis.

(** Line by line, [x[i], x[j] = x[j], x[i]] exchanges two elements. *)
Lemma swap_perm {A} (l l' : list A) (i j : nat) :
  swap l i j = Ok l' → l' ≡ₚ l.
Proof.
  unfold swap, list_get.
  destruct (l !! j) as [xj|] eqn:Hj; [|done].
  destruct (l !! i) as [xi|] eqn:Hi; [|done]. simpl. intros [= <-].
  pose proof (lookup_lt_Some _ _ _ Hi) as Hilt.
  pose proof (lookup_lt_Some _ _ _ Hj) as Hjlt.
  apply Permutation_inj. split; [by rewrite !length_insert|].
  exists (λ n, if decide (n = i) then j else if decide (n = j) then i else n). split.
  - intros n m. repeat case_decide; lia.
  - intros n. destruct (decide (n = i)) as [->|Hni].
    + destruct (decide (i = j)) as [->|Hij].
      * rewrite list_lookup_insert_eq by (by rewrite length_insert). congruence.
      * rewrite list_lookup_insert_ne by done.
        rewrite list_lookup_insert_eq by done. congruence.
    + destruct (decide (n = j)) as [->|Hnj].
      * rewrite list_lookup_insert_eq by (by rewrite length_insert). congruence.
      * by rewrite !list_lookup_insert_ne by done.
Qed.

Lemma shuffle_loop_perm {G} `{PyRandom G} {A} (indices : list nat) (l l' : list A)
    (g g' : G) :
  shuffle_loop indices l g = Ok (l', g') → l' ≡ₚ l.
Proof.
  revert l g. induction indices as [|i rest IH]; intros l g; simpl.
  - by intros [= <- _].
  - destruct (rng_randbelow (Z.of_nat i + 1) g) as [j g1].
    unfold mbind, Rand_bind, lift_except.
    destruct (swap l i (Z.to_nat j)) as [l1|err] eqn:Hswap; [|done].
    intros Hrest%IH. rewrite Hrest. by eapply swap_perm.
Qed.

Lemma percent_flags_count (n : nat) (pct : Z) :
  length (filter (λ flag, flag ≠ 0) (percent_flags n pct)) = percent_count n pct.
Proof.
  unfold percent_flags, percent_count.
  generalize (Z.of_nat n * pct / 100). intros c.
  induction n as [|n IH]; [simpl; lia|].
  rewrite seq_S, fmap_app, filter_app, length_app, IH. simpl.
  rewrite filter_cons, filter_nil.
  destruct (Z.of_nat n <? c) eqn:Hc.
  - apply Z.ltb_lt in Hc. rewrite decide_True by done. simpl. lia.
  - apply Z.ltb_ge in Hc. rewrite decide_False by (intros ?; done). simpl. lia.
Qed.

(** X13: in a written file the clearway flags are a rearrangement of the
    flags before the shuffle, so the number of edges given the clearway
    rush width is the integer part of [len(edges) * clearway_pct / 100],
    at least none and at most all, whatever the generator draws; line by
    line the rush width follows the flag. *)
Theorem clearway_count {G : Type} `{PyRandom G}
    (edges : list EdgeRecord) (base_width rush_width clearway_width : Q)
    (density clearway_pct : Z) (speed : Q) (g g' : G) (file : EdgesFile) :
  California.write_edges edges base_width rush_width clearway_width
    density clearway_pct g = Ok (file, g') ∨
  London.write_edges edges base_width rush_width clearway_width
    density clearway_pct speed g = Ok (file, g') →
  ∃ is_clearway,
    is_clearway ≡ₚ percent_flags (length edges) clearway_pct ∧
    length (filter (λ flag, flag ≠ 0) is_clearway)
      = percent_count (length edges) clearway_pct ∧
    Forall2 (λ flag line,
        line_rush_width line = if flag =? 0 then base_width else clearway_width)
      is_clearway (edge_lines file).
Proof.
  unfold California.write_edges, London.write_edges.
  intros [Hrun|Hrun];
    apply write_edges_with_line in Hrun
      as (is_clearway & g1 & Hflags & _ & _ & Hlen & Hlines);
    exists is_clearway;
    pose proof (shuffle_loop_perm _ _ _ _ _ Hflags) as Hperm;
    (split; [exact Hperm|]);
    (split; [by rewrite Hperm, percent_flags_count|]);
    apply Forall2_same_length_lookup;
    (split; [by rewrite Hperm, percent_flags_length|]);
    intros idx flag line Hflag Hline;
    destruct (lookup_lt_is_Some_2 edges idx) as [e He];
      try (rewrite <- Hlen; by eapply lookup_lt_Some);
    destruct (Hlines idx e line He Hline)
      as (ga & base_cost & gb & gc & costs & flag' & _ & _ & Hflag' & ->);
    rewrite Hflag in Hflag'; by injection Hflag' as <-.
Qed.

Lemma clearway_count_witness :
  ∃ (file : EdgesFile) (g' : Z) is_clearway,
    California.write_edges (G:=Z)
      (replicate 20 (mkEdge 0 1 5)) DEFAULT_BASE_WIDTH DEFAULT_RUSH_WIDTH
      CLEARWAY_RUSH_WIDTH DENSITY CLEARWAY_PERCENTAGE 0 = Ok (file, g') ∧
    length (filter (λ flag, flag ≠ 0) is_clearway) = 1%nat ∧
    Forall2 (λ flag line,
        line_rush_width line =
          if flag =? 0 then DEFAULT_BASE_WIDTH else CLEARWAY_RUSH_WIDTH)
      is_clearway (edge_lines file).
Proof.
  destruct (California.write_edges (G:=Z) (replicate 20 (mkEdge 0 1 5))
              DEFAULT_BASE_WIDTH DEFAULT_RUSH_WIDTH CLEARWAY_RUSH_WIDTH
              DENSITY CLEARWAY_PERCENTAGE 0) as [[file g']|err] eqn:Hrun;
    [|vm_compute in Hrun; discriminate].
  destruct (clearway_count (G:=Z) (replicate 20 (mkEdge 0 1 5))
              DEFAULT_BASE_WIDTH DEFAULT_RUSH_WIDTH CLEARWAY_RUSH_WIDTH
              DENSITY CLEARWAY_PERCENTAGE DEFAULT_SPEED 0 g' file (or_introl Hrun))
    as (is_clearway & _ & Hcount & Hlines).
  exists file, g', is_clearway.
  split; [reflexivity|]. split; [exact Hcount | exact Hlines].
Defined.
End clearway_share.


(** ** What [write_edges] writes and when it raises *)

Section edge_file.
Import TimeGrid Synthesis.

Section with_generator.
Context {G : Type} `{PyRandomLaws G}.

(** The score block draws and is forgotten: the file starts from the
    generator seeded with 123. *)
Lemma write_edges_with_from_seed (transition : RushState → Z → RushState)
    (base_cost_of : EdgeRecord → Rand G Q) (edges : list EdgeRecord)
    (base_width clearway_width : Q) (density clearway_pct : Z) (g : G) :
  write_edges_with transition base_cost_of edges base_width clearway_width
    density clearway_pct g =
  (is_clearway ← shuffle (percent_flags (length edges) clearway_pct);
   lines ← for_each_rand (λ ie : nat * EdgeRecord,
              base_cost ← base_cost_of ie.2;
              edge_line transition is_clearway base_width clearway_width
                ie.1 ie.2 base_cost)
            (imap pair edges);
   mret (mkFile ARRIVAL_SERIES WIDTH_SERIES lines)) (rng_seed 123).
Proof.
  unfold write_edges_with.
  destruct (shuffle_total (percent_flags (length edges) density) (rng_seed 42))
    as (scores & g1 & Hscores & _).
  unfold mbind at 1 2 3, Rand_bind at 1 2 3, seed. by rewrite Hscores.
Qed.
End with_generator.

(** X14: the density option has no effect on the edge file: the scores it
    selects are shuffled and never used, and the generator is seeded again
    before anything is drawn for the file. *)
Theorem write_edges_ignores_density {G : Type} `{PyRandomLaws G}
    (edges : list EdgeRecord) (base_width rush_width clearway_width : Q)
    (density density' clearway_pct : Z) (speed : Q) (g : G) :
  California.write_edges edges base_width rush_width clearway_width
    density clearway_pct g =
  California.write_edges edges base_width rush_width clearway_width
    density' clearway_pct g ∧
  London.write_edges edges base_width rush_width clearway_width
    density clearway_pct speed g =
  London.write_edges edges base_width rush_width clearway_width
    density' clearway_pct speed g.
Proof.
  unfold California.write_edges, London.write_edges.
  by rewrite !write_edges_with_from_seed.
Qed.

Lemma write_edges_ignores_density_witness :
  California.write_edges (G:=Z) [mkEdge 0 1 5; mkEdge 1 0 3] DEFAULT_BASE_WIDTH
    DEFAULT_RUSH_WIDTH CLEARWAY_RUSH_WIDTH 20 CLEARWAY_PERCENTAGE 0 =
  California.write_edges (G:=Z) [mkEdge 0 1 5; mkEdge 1 0 3] DEFAULT_BASE_WIDTH
    DEFAULT_RUSH_WIDTH CLEARWAY_RUSH_WIDTH 90 CLEARWAY_PERCENTAGE 0.
Proof.
  exact (proj1 (write_edges_ignores_density (G:=Z) [mkEdge 0 1 5; mkEdge 1 0 3]
                  DEFAULT_BASE_WIDTH DEFAULT_RUSH_WIDTH CLEARWAY_RUSH_WIDTH
                  20 90 CLEARWAY_PERCENTAGE DEFAULT_SPEED 0)).
Defined.

(** X15: a written edge file has the arrival series as its first line, [0]
    as its second, and then one line per edge, in the order of the edges,
    with the source, the destination and the distance of the edge
    unchanged. *)
Theorem write_edges_carries_edges {G : Type} `{PyRandom G}
    (edges : list EdgeRecord) (base_width rush_width clearway_width : Q)
    (density clearway_pct : Z) (speed : Q) (g g' : G) (file : EdgesFile) :
  California.write_edges edges base_width rush_width clearway_width
    density clearway_pct g = Ok (file, g') ∨
  London.write_edges edges base_width rush_width clearway_width
    density clearway_pct speed g = Ok (file, g') →
  arrival_line file = [0; 450; 480; 510; 540; 570; 960; 990; 1020; 1050; 1080; 1110] ∧
  width_line file = [0] ∧
  (λ line, mkEdge (line_src line) (line_dst line) (line_distance line))
    <$> edge_lines file = edges.
Proof.
  unfold California.write_edges, London.write_edges.
  intros [Hrun|Hrun];
    apply write_edges_with_line in Hrun
      as (is_clearway & g1 & _ & Harr & Hwidth & Hlen & Hlines);
    (split; [rewrite Harr; vm_compute; reflexivity|]);
    (split; [exact Hwidth|]);
    apply list_eq; intros idx; rewrite list_lookup_fmap;
    destruct (edge_lines file !! idx) as [line|] eqn:Hline; simpl.
  1,3: destruct (lookup_lt_is_Some_2 edges idx) as [e He];
         [rewrite <- Hlen; by eapply lookup_lt_Some|];
       destruct (Hlines idx e line He Hline)
         as (ga & base_cost & gb & gc & costs & flag & _ & _ & _ & ->);
       simpl; rewrite He; by destruct e.
  all: symmetry; apply lookup_ge_None; rewrite <- Hlen; by apply lookup_ge_None.
Qed.

Lemma write_edges_carries_edges_witness :
  ∃ (file : EdgesFile) (g' : Z),
    London.write_edges (G:=Z) [mkEdge 3 1 5; mkEdge 1 3 (7 # 2)] DEFAULT_BASE_WIDTH
      DEFAULT_RUSH_WIDTH CLEARWAY_RUSH_WIDTH DENSITY CLEARWAY_PERCENTAGE
      DEFAULT_SPEED 0 = Ok (file, g') ∧
    (λ line, mkEdge (line_src line) (line_dst line) (line_distance line))
      <$> edge_lines file = [mkEdge 3 1 5; mkEdge 1 3 (7 # 2)].
Proof.
  destruct (London.write_edges (G:=Z) [mkEdge 3 1 5; mkEdge 1 3 (7 # 2)]
              DEFAULT_BASE_WIDTH DEFAULT_RUSH_WIDTH CLEARWAY_RUSH_WIDTH DENSITY
              CLEARWAY_PERCENTAGE DEFAULT_SPEED 0) as [[file g']|err] eqn:Hrun;
    [|vm_compute in Hrun; discriminate].
  destruct (write_edges_carries_edges (G:=Z) [mkEdge 3 1 5; mkEdge 1 3 (7 # 2)]
              DEFAULT_BASE_WIDTH DEFAULT_RUSH_WIDTH CLEARWAY_RUSH_WIDTH DENSITY
              CLEARWAY_PERCENTAGE DEFAULT_SPEED 0 g' file (or_intror Hrun))
    as (_ & _ & Hedges).
  exists file, g'. split; [reflexivity | exact Hedges].
Defined.
End edge_file.


(** ** When [write_edges] raises *)

Section edge_file_errors.
Import TimeGrid Synthesis.
Context {G : Type} `{PyRandomLaws G}.

Lemma travel_costs_total (base_cost : Q) (g : G) :
  (∃ costs g', travel_costs_of California.transition base_cost g = Ok (costs, g')) ∧
  (∃ costs g', travel_costs_of London.transition base_cost g = Ok (costs, g')).
Proof.
  destruct (travel_costs_default base_cost g) as (costs & g' & Hca & Hldn & _).
  split; exists costs, g'; [exact Hca | exact Hldn].
Qed.

(** The London base cost: computed for a speed that is not zero, a
    [ZeroDivisionError] for speed zero. *)
Lemma london_base_cost_speed (speed : Q) (e : EdgeRecord) (g : G) :
  (¬ (speed == 0)%Q → ∃ base_cost g', London.base_cost_of speed e g = Ok (base_cost, g')) ∧
  ((speed == 0)%Q → London.base_cost_of speed e g = Raise ZeroDivisionError).
Proof.
  unfold London.base_cost_of.
  destruct (uniform_range (8 # 10) (12 # 10) g) as (m & g' & Hm & Hlo & Hhi); [done|].
  rewrite (bind_rand_Ok _ _ _ _ _ Hm). unfold lift_except, float_div. split.
  - intros Hspeed. destruct (Qeq_bool (speed * m) 0) eqn:Hzero;
      [|eexists _, _; reflexivity].
    apply Qeq_bool_iff, Qmult_integral in Hzero as [Hzero|Hzero]; [done|].
    rewrite Hzero in Hlo. by apply Qle_not_lt in Hlo.
  - intros Hspeed. destruct (Qeq_bool (speed * m) 0) eqn:Hzero; [done|].
    apply Qeq_bool_neq in Hzero. exfalso. apply Hzero. rewrite Hspeed. ring.
Qed.

(** X16: the California [write_edges] never raises, on any edge list and
    configuration.  The London [write_edges] raises exactly when the
    configured speed is zero and there is an edge, and then it is a
    [ZeroDivisionError]. *)
Theorem write_edges_raises (edges : list EdgeRecord)
    (base_width rush_width clearway_width : Q) (density clearway_pct : Z)
    (speed : Q) (g : G) :
  (∃ file g', California.write_edges edges base_width rush_width clearway_width
                density clearway_pct g = Ok (file, g')) ∧
  (¬ (speed == 0)%Q ∨ edges = [] →
   ∃ file g', London.write_edges edges base_width rush_width clearway_width
                density clearway_pct speed g = Ok (file, g')) ∧
  ((speed == 0)%Q → edges ≠ [] →
   London.write_edges edges base_width rush_width clearway_width
     density clearway_pct speed g = Raise ZeroDivisionError).
Proof.
  split_and!.
  - destruct (write_edges_with_total California.transition California.base_cost_of
                (λ _ _, True) edges base_width clearway_width density clearway_pct g)
      as (file & g' & Hrun & _).
    + intros base_cost g0. exact (proj1 (travel_costs_total base_cost g0)).
    + intros e g0 _. destruct (california_base_cost e g0) as (b & g1 & Hb & _).
      exists b, g1. split; [exact Hb | exact I].
    + exists file, g'. exact Hrun.
  - intros Hcase.
    destruct (write_edges_with_total London.transition (London.base_cost_of speed)
                (λ _ _, True) edges base_width clearway_width density clearway_pct g)
      as (file & g' & Hrun & _).
    + intros base_cost g0. exact (proj2 (travel_costs_total base_cost g0)).
    + intros e g0 He. destruct Hcase as [Hspeed| ->]; [|by apply elem_of_nil in He].
      destruct (proj1 (london_base_cost_speed speed e g0) Hspeed) as (b & g1 & Hb).
      exists b, g1. split; [exact Hb | exact I].
    + exists file, g'. exact Hrun.
  - intros Hspeed Hedges. unfold London.write_edges.
    rewrite write_edges_with_from_seed.
    destruct edges as [|e edges]; [done|].
    destruct (shuffle_total (percent_flags (length (e :: edges)) clearway_pct)
                (rng_seed 123)) as (flags & g1 & Hflags & _).
    rewrite (bind_rand_Ok _ _ _ _ _ Hflags).
    unfold mbind at 1, Rand_bind at 1. cbn [imap for_each_rand].
    unfold mbind at 1, Rand_bind at 1. unfold mbind at 1, Rand_bind at 1.
    cbn [snd]. by rewrite (proj2 (london_base_cost_speed speed e g1) Hspeed).
Qed.
End edge_file_errors.

Lemma write_edges_raises_witness :
  ∃ (file : EdgesFile) (g' : Z),
    California.write_edges (G:=Z) [mkEdge 0 1 0; mkEdge 1 0 3] DEFAULT_BASE_WIDTH
      DEFAULT_RUSH_WIDTH CLEARWAY_RUSH_WIDTH DENSITY CLEARWAY_PERCENTAGE 0
      = Ok (file, g').
Proof.
  exact (proj1 (write_edges_raises (G:=Z) [mkEdge 0 1 0; mkEdge 1 0 3]
                  DEFAULT_BASE_WIDTH DEFAULT_RUSH_WIDTH CLEARWAY_RUSH_WIDTH
                  DENSITY CLEARWAY_PERCENTAGE DEFAULT_SPEED 0)).
Defined.


(** ** The cost loop on any series of times *)

Section cost_bounds.
Import TimeGrid Synthesis.

Lemma raised_cost_bounds (base_cost : Q) (position : Z) (c : Q) :
  (0 <= base_cost)%Q → raised_cost base_cost position c →
  (base_cost <= c)%Q ∧ (c <= base_cost * (14 # 10))%Q.
Proof.
  intros Hbase. unfold raised_cost, multiplier_range.
  destruct ((position =? 0) || (position =? 4));
    [intros (m & Hlo & Hhi & ->); split; nra|].
  destruct ((position =? 1) || (position =? 3));
    [intros (m & Hlo & Hhi & ->); split; nra|].
  destruct (position =? 2); [intros (m & Hlo & Hhi & ->); split; nra|].
  intros ->. split; lra.
Qed.

Lemma state_cost_bounds (base_cost : Q) (st : RushState) (time : Z) (c : Q) :
  (0 <= base_cost)%Q → state_cost base_cost st time c →
  (base_cost <= c)%Q ∧ (c <= base_cost * (14 # 10))%Q.
Proof.
  intros Hbase. unfold state_cost. destruct (inside_rush st).
  - destruct (RUSH_HOURS !! rush_idx st) as [w|]; [|done].
    by apply raised_cost_bounds.
  - intros ->. split; lra.
Qed.

(** Inside a rush, [rush_idx] points at a window: both transitions keep
    this, from any state and at any time. *)
Lemma transition_keeps_window (st : RushState) (time : Z) :
  (inside_rush st = true → is_Some (RUSH_HOURS !! rush_idx st)) →
  (inside_rush (California.transition st time) = true →
   is_Some (RUSH_HOURS !! rush_idx (California.transition st time))) ∧
  (inside_rush (London.transition st time) = true →
   is_Some (RUSH_HOURS !! rush_idx (London.transition st time))).
Proof.
  intros Hst. unfold California.transition, London.transition.
  destruct (RUSH_HOURS !! rush_idx st) as [[start end_]|] eqn:Hw;
    [|split; rewrite Hw; exact Hst].
  split.
  - destruct (time =? start); [simpl; rewrite Hw; by eexists|].
    destruct (time =? end_); [done|]. by rewrite Hw.
  - destruct (time =? start); [simpl; rewrite Hw; by eexists|].
    destruct (end_ <=? time); [|by rewrite Hw].
    destruct (inside_rush st) eqn:Hin; [done|]. by rewrite Hin.
Qed.

Lemma rush_states_keep_window (transition : RushState → Z → RushState)
    (times : list Z) (st : RushState) :
  (∀ st time, (inside_rush st = true → is_Some (RUSH_HOURS !! rush_idx st)) →
     inside_rush (transition st time) = true →
     is_Some (RUSH_HOURS !! rush_idx (transition st time))) →
  (inside_rush st = true → is_Some (RUSH_HOURS !! rush_idx st)) →
  Forall (λ st', inside_rush st' = true → is_Some (RUSH_HOURS !! rush_idx st'))
    (rush_states transition times st).
Proof.
  intros Hkeep. revert st. induction times as [|time rest IH]; intros st Hst;
    [constructor|].
  simpl. constructor; [by apply Hkeep|]. apply IH. by apply Hkeep.
Qed.

Lemma rush_states_length (transition : RushState → Z → RushState)
    (times : list Z) (st : RushState) :
  length (rush_states transition times st) = length times.
Proof.
  revert st. induction times as [|t ts IH]; intros st; [done|].
  simpl. by rewrite IH.
Qed.

Lemma cost_loop_bounds {G : Type} `{PyRandomLaws G}
    (transition : RushState → Z → RushState) (base_cost : Q) (times : list Z) (g : G) :
  (∀ st time, (inside_rush st = true → is_Some (RUSH_HOURS !! rush_idx st)) →
     inside_rush (transition st time) = true →
     is_Some (RUSH_HOURS !! rush_idx (transition st time))) →
  (0 <= base_cost)%Q →
  ∃ costs g',
    cost_loop transition base_cost times (mkRush false 0) [] g = Ok (costs, g') ∧
    length costs = length times ∧
    Forall (λ c, (base_cost <= c)%Q ∧ (c <= base_cost * (14 # 10))%Q) costs.
Proof.
  intros Hkeep Hbase.
  destruct (cost_loop_states transition base_cost times (mkRush false 0) [] g)
    as (costs & g' & Hrun & Hcosts).
  { apply rush_states_keep_window; [exact Hkeep | done]. }
  exists costs, g'. split; [exact Hrun|]. split.
  - apply Forall2_length in Hcosts. rewrite <- Hcosts.
    rewrite length_zip, rush_states_length. lia.
  - apply Forall_forall. intros c [i Hi]%list_elem_of_lookup.
    destruct (Forall2_lookup_r _ _ _ _ _ Hcosts Hi) as ([st time] & _ & Hc).
    by eapply state_cost_bounds.
Qed.

(** X17: on every series of arrival times, not only the default grid, the
    cost loop of either converter raises no [IndexError] and returns one
    cost per time; for a base cost that is not negative every cost lies
    between the base cost and 1.4 times the base cost. *)
Theorem cost_loop_any_series {G : Type} `{PyRandomLaws G}
    (base_cost : Q) (times : list Z) (g : G) :
  (0 <= base_cost)%Q →
  (∃ costs g',
     cost_loop California.transition base_cost times (mkRush false 0) [] g
       = Ok (costs, g') ∧
     length costs = length times ∧
     Forall (λ c, (base_cost <= c)%Q ∧ (c <= base_cost * (14 # 10))%Q) costs) ∧
  (∃ costs g',
     cost_loop London.transition base_cost times (mkRush false 0) [] g
       = Ok (costs, g') ∧
     length costs = length times ∧
     Forall (λ c, (base_cost <= c)%Q ∧ (c <= base_cost * (14 # 10))%Q) costs).
Proof.
  intros Hbase. split; apply cost_loop_bounds; try done.
  - intros st time Hst. exact (proj1 (transition_keeps_window st time Hst)).
  - intros st time Hst. exact (proj2 (transition_keeps_window st time Hst)).
Qed.

Lemma cost_loop_any_series_witness :
  (0 <= 3)%Q ∧
  ∃ costs (g' : Z),
    cost_loop (G:=Z) London.transition 3 [450; 455; 700; 960; 2000] (mkRush false 0) [] 0
      = Ok (costs, g') ∧
    length costs = 5%nat ∧
    Forall (λ c, (3 <= c)%Q ∧ (c <= 3 * (14 # 10))%Q) costs.
Proof.
  assert (Hbase : (0 <= 3)%Q) by done.
  split; [exact Hbase|].
  exact (proj2 (cost_loop_any_series (G:=Z) 3 [450; 455; 700; 960; 2000] 0 Hbase)).
Defined.
End cost_bounds.


(** ** The loaders of the California converter *)

Section california_loaders.
Import California.
Context {Field : Type} (to_int : Field → Except Z) (to_float : Field → Except Q).

Lemma load_node_line_reads (acc nodes : list NodeRecord) (parts : list Field) :
  parts ≠ [] →
  load_node_line to_int to_float acc parts = Ok nodes ↔
  ∃ n, node_line_reads to_int to_float parts n ∧ nodes = acc ++ [n].
Proof.
  intros Hparts. destruct parts as [|f0 [|f1 [|f2 rest]]]; [done| | |].
  - split; [done|]. by intros (n & (? & ? & ? & ? & ? & _) & _).
  - split; [done|]. by intros (n & (? & ? & ? & ? & ? & _) & _).
  - unfold load_node_line, list_get. cbn [length Nat.ltb Nat.leb lookup list_lookup].
    rewrite !bind_Ok. split.
    + destruct (to_int f0) as [id|] eqn:Hid; [|done]. rewrite bind_Ok.
      destruct (to_float f1) as [lon|] eqn:Hlon; [|done]. rewrite bind_Ok.
      destruct (to_float f2) as [lat|] eqn:Hlat; [|done]. rewrite bind_Ok.
      intros [= <-]. exists (mkNode id lat lon). split; [|done].
      by exists f0, f1, f2, rest.
    + intros ([id lat lon] & (g0 & g1 & g2 & rest' & Heq & Hid & Hlon & Hlat) & ->).
      simpl in *. injection Heq as <- <- <- _.
      by rewrite Hid, bind_Ok, Hlon, bind_Ok, Hlat, bind_Ok.
Qed.

Lemma load_nodes_from (lines : list (list Field)) (acc nodes : list NodeRecord) :
  for_each (load_node_line to_int to_float) lines acc = Ok nodes ↔
  ∃ new, nodes = acc ++ new ∧
    Forall2 (node_line_reads to_int to_float) (filter (λ parts, parts ≠ []) lines) new.
Proof.
  revert acc. induction lines as [|parts lines IH]; intros acc.
  - simpl. split.
    + intros [= <-]. exists []. by rewrite app_nil_r.
    + intros (new & -> & Hnew). apply Forall2_nil_inv_l in Hnew as ->.
      by rewrite app_nil_r.
  - rewrite for_each_cons. destruct (decide (parts = [])) as [->|Hparts].
    + rewrite filter_cons_False by (by intros ?). simpl. apply IH.
    + rewrite filter_cons_True by done. split.
      * destruct (load_node_line to_int to_float acc parts) as [acc'|err] eqn:Hline;
          [|done].
        rewrite bind_Ok. intros (new & -> & Hnew)%IH.
        apply load_node_line_reads in Hline as (n & Hn & ->); [|done].
        exists (n :: new). split; [by rewrite <- app_assoc|by constructor].
      * intros (new & -> & Hnew).
        apply Forall2_cons_inv_l in Hnew as (n & new' & Hn & Hnew & ->).
        assert (Hline : load_node_line to_int to_float acc parts = Ok (acc ++ [n]))
          by (apply load_node_line_reads; eauto).
        rewrite Hline, bind_Ok. apply IH. exists new'.
        split; [by rewrite <- app_assoc|done].
Qed.

(** X18: [load_nodes] returns exactly when every non-blank line has at
    least three fields of which the first converts to the id, the second to
    the longitude and the third to the latitude; it then returns their
    records in the order of the lines.  Blank lines are skipped and further
    fields are ignored; any other line makes it raise. *)
Theorem load_nodes_reads (lines : list (list Field)) (nodes : list NodeRecord) :
  load_nodes to_int to_float lines = Ok nodes ↔
  Forall2 (node_line_reads to_int to_float) (filter (λ parts, parts ≠ []) lines) nodes.
Proof.
  unfold load_nodes. rewrite load_nodes_from. split.
  - by intros (new & -> & Hnew).
  - intros Hnew. by exists nodes.
Qed.

Lemma load_edge_line_reads (acc edges : list EdgeRecord) (parts : list Field) :
  parts ≠ [] →
  load_edge_line to_int to_float acc parts = Ok edges ↔
  ∃ e, edge_line_reads to_int to_float parts e ∧ edges = acc ++ [e].
Proof.
  intros Hparts. destruct parts as [|f0 [|f1 [|f2 [|f3 rest]]]]; [done| | | |].
  - split; [done|]. by intros (e & (? & ? & ? & ? & ? & ? & _) & _).
  - split; [done|]. by intros (e & (? & ? & ? & ? & ? & ? & _) & _).
  - split; [done|]. by intros (e & (? & ? & ? & ? & ? & ? & _) & _).
  - unfold load_edge_line, list_get. cbn [length Nat.ltb Nat.leb lookup list_lookup].
    rewrite !bind_Ok. split.
    + destruct (to_int f1) as [s|] eqn:Hs; [|done]. rewrite bind_Ok.
      destruct (to_int f2) as [d|] eqn:Hd; [|done]. rewrite bind_Ok.
      destruct (to_float f3) as [w|] eqn:Hw; [|done]. rewrite bind_Ok.
      intros [= <-]. exists (mkEdge s d w). split; [|done].
      by exists f0, f1, f2, f3, rest.
    + intros ([s d w] & (g0 & g1 & g2 & g3 & rest' & Heq & Hs & Hd & Hw) & ->).
      simpl in *. injection Heq as <- <- <- <- _.
      by rewrite Hs, bind_Ok, Hd, bind_Ok, Hw, bind_Ok.
Qed.

Lemma load_edges_from (lines : list (list Field)) (acc edges : list EdgeRecord) :
  for_each (load_edge_line to_int to_float) lines acc = Ok edges ↔
  ∃ new, edges = acc ++ new ∧
    Forall2 (edge_line_reads to_int to_float) (filter (λ parts, parts ≠ []) lines) new.
Proof.
  revert acc. induction lines as [|parts lines IH]; intros acc.
  - simpl. split.
    + intros [= <-]. exists []. by rewrite app_nil_r.
    + intros (new & -> & Hnew). apply Forall2_nil_inv_l in Hnew as ->.
      by rewrite app_nil_r.
  - rewrite for_each_cons. destruct (decide (parts = [])) as [->|Hparts].
    + rewrite filter_cons_False by (by intros ?). simpl. apply IH.
    + rewrite filter_cons_True by done. split.
      * destruct (load_edge_line to_int to_float acc parts) as [acc'|err] eqn:Hline;
          [|done].
        rewrite bind_Ok. intros (new & -> & Hnew)%IH.
        apply load_edge_line_reads in Hline as (e & He & ->); [|done].
        exists (e :: new). split; [by rewrite <- app_assoc|by constructor].
      * intros (new & -> & Hnew).
        apply Forall2_cons_inv_l in Hnew as (e & new' & He & Hnew & ->).
        assert (Hline : load_edge_line to_int to_float acc parts = Ok (acc ++ [e]))
          by (apply load_edge_line_reads; eauto).
        rewrite Hline, bind_Ok. apply IH. exists new'.
        split; [by rewrite <- app_assoc|done].
Qed.

(** X19: [load_edges] returns exactly when every non-blank line has at
    least four fields of which the second and third convert to the
    endpoints and the fourth to the distance; it then returns their edges in
    the order of the lines, duplicates included.  The first field, the edge
    id, is never converted. *)
Theorem load_edges_reads (lines : list (list Field)) (edges : list EdgeRecord) :
  load_edges to_int to_float lines = Ok edges ↔
  Forall2 (edge_line_reads to_int to_float) (filter (λ parts, parts ≠ []) lines) edges.
Proof.
  unfold load_edges. rewrite load_edges_from. split.
  - by intros (new & -> & Hnew).
  - intros Hnew. by exists edges.
Qed.
End california_loaders.


(** ** The loader of the London converter *)

Section london_loader.
Import London.
Context {Field : Type} (to_int : Field → Except Z) (to_float : Field → Except Q)
  (bng_to_wgs84 : Q → Q → Q * Q).

Lemma list_find_snoc {A} (P : A → Prop) `{∀ a, Decision (P a)} (l : list A) (a : A) :
  list_find P (l ++ [a]) =
  match list_find P l with
  | Some r => Some r
  | None => if decide (P a) then Some (length l, a) else None
  end.
Proof.
  induction l as [|b l IH]; simpl.
  - by destruct (decide (P a)).
  - destruct (decide (P b)); [done|]. rewrite IH.
    destruct (list_find P l); [done|]. by destruct (decide (P a)).
Qed.

Lemma list_find_same {A} (P Q : A → Prop) `{∀ a, Decision (P a)}
    `{∀ a, Decision (Q a)} (l : list A) :
  (∀ a, a ∈ l → P a ↔ Q a) → list_find P l = list_find Q l.
Proof.
  induction l as [|b l IH]; intros Hsame; [done|]. simpl.
  rewrite IH by (intros a Ha; apply Hsame; by right).
  destruct (decide (P b)) as [Hb|Hb], (decide (Q b)) as [Hb'|Hb']; try done.
  - exfalso. apply Hb'. apply Hsame; [by left|done].
  - exfalso. apply Hb. apply Hsame; [by left|done].
Qed.

Lemma add_absent_lookup (nodes : gmap Z NodeRecord) (a k : Z) (n : NodeRecord) :
  (if bool_decide (a ∉ dom nodes) then <[a := n]> nodes else nodes) !! k =
  match nodes !! k with
  | Some m => Some m
  | None => if decide (a = k) then Some n else None
  end.
Proof.
  case_bool_decide as Ha.
  - apply not_elem_of_dom in Ha. destruct (decide (a = k)) as [<-|Hne].
    + by rewrite lookup_insert_eq, Ha.
    + rewrite lookup_insert_ne by done. by destruct (nodes !! k).
  - destruct (nodes !! k) as [m|] eqn:Hk; [done|].
    destruct (decide (a = k)) as [<-|Hne]; [|done].
    exfalso. apply elem_of_dom in Ha. rewrite Hk in Ha. by destruct Ha.
Qed.

(** One row of the first loop. *)
Lemma first_pass_step (nodes : gmap Z NodeRecord) (edges : list EdgeRecord)
    (row : CsvRow Field) (v : RowValues) :
  row_reads to_int to_float row v →
  ∃ nodes',
    first_pass_row to_int to_float bng_to_wgs84 (nodes, edges) row
      = Ok (nodes', edges ++ [row_edge v]) ∧
    ∀ k, nodes' !! k =
      match nodes !! k with
      | Some n => Some n
      | None => if decide (val_src v = k ∨ val_dst v = k)
                then Some (row_node bng_to_wgs84 k v) else None
      end.
Proof.
  intros (Hx & Hy & Hs & Hd & Hw). unfold first_pass_row.
  rewrite Hx, bind_Ok, Hy, bind_Ok, Hs, bind_Ok, Hd, bind_Ok, Hw, bind_Ok.
  cbv zeta. cbn [fst snd]. eexists. split; [reflexivity|]. intros k.
  rewrite !add_absent_lookup. destruct (nodes !! k) as [n|]; [done|].
  destruct (decide (val_src v = k)) as [<-|Hsrc].
  - by rewrite decide_True by (by left).
  - destruct (decide (val_dst v = k)) as [<-|Hdst].
    + by rewrite decide_True by (by right).
    + rewrite decide_False; [done|]. by intros [?|?].
Qed.

(** One row of the second loop. *)
Lemma second_pass_step (nodes : gmap Z NodeRecord) (row : CsvRow Field)
    (v : RowValues) :
  row_reads to_int to_float row v → val_src v ∈ dom nodes →
  second_pass_row to_int to_float bng_to_wgs84 nodes row
    = Ok (<[val_src v := row_node bng_to_wgs84 (val_src v) v]> nodes).
Proof.
  intros (Hx & Hy & Hs & _) Hin. unfold second_pass_row.
  rewrite Hx, bind_Ok, Hy, bind_Ok, Hs, bind_Ok. cbv zeta.
  by rewrite bool_decide_eq_true_2.
Qed.

(** The first loop: the edges in the order of the rows, and a record for
    every id from the first row that mentions it. *)
Lemma first_pass (rows : list (CsvRow Field)) (vals : list RowValues)
    (nodes : gmap Z NodeRecord) (edges : list EdgeRecord) :
  Forall2 (row_reads to_int to_float) rows vals →
  ∃ nodes',
    for_each (first_pass_row to_int to_float bng_to_wgs84) rows (nodes, edges)
      = Ok (nodes', edges ++ (row_edge <$> vals)) ∧
    ∀ k, nodes' !! k =
      match nodes !! k with
      | Some n => Some n
      | None => (λ iv : nat * RowValues, row_node bng_to_wgs84 k iv.2) <$>
                list_find (λ v, val_src v = k ∨ val_dst v = k) vals
      end.
Proof.
  intros Hreads. revert nodes edges.
  induction Hreads as [|row v rows vals Hrow Hrows IH]; intros nodes edges.
  - exists nodes. split; [by rewrite app_nil_r|]. intros k. by destruct (nodes !! k).
  - destruct (first_pass_step nodes edges row v Hrow) as (nodes1 & Hstep & Hlookup1).
    destruct (IH nodes1 (edges ++ [row_edge v])) as (nodes2 & Hrun & Hlookup2).
    exists nodes2. split.
    + rewrite for_each_cons, Hstep, bind_Ok, Hrun. by rewrite <- app_assoc.
    + intros k. rewrite Hlookup2, Hlookup1. destruct (nodes !! k) as [n|]; [done|].
      cbn [list_find]. destruct (decide (val_src v = k ∨ val_dst v = k)); [done|].
      by destruct (list_find _ vals) as [[i u]|].
Qed.

(** The second loop: the record of a source comes from the last row it is
    the source of. *)
Lemma second_pass (rows : list (CsvRow Field)) (vals : list RowValues)
    (nodes : gmap Z NodeRecord) :
  Forall2 (row_reads to_int to_float) rows vals →
  (∀ v, v ∈ vals → val_src v ∈ dom nodes) →
  ∃ nodes',
    for_each (second_pass_row to_int to_float bng_to_wgs84) rows nodes = Ok nodes' ∧
    ∀ k, nodes' !! k =
      match list_find (λ v, val_src v = k) (reverse vals) with
      | Some iv => Some (row_node bng_to_wgs84 k iv.2)
      | None => nodes !! k
      end.
Proof.
  intros Hreads. revert nodes.
  induction Hreads as [|row v rows vals Hrow Hrows IH]; intros nodes Hdom.
  - by exists nodes.
  - destruct (IH (<[val_src v := row_node bng_to_wgs84 (val_src v) v]> nodes))
      as (nodes2 & Hrun & Hlookup).
    { intros u Hu. apply dom_insert, elem_of_union. right. apply Hdom. by right. }
    exists nodes2. split.
    + rewrite for_each_cons, (second_pass_step nodes row v Hrow), bind_Ok;
        [exact Hrun|]. apply Hdom. by left.
    + intros k. rewrite Hlookup, reverse_cons, list_find_snoc.
      destruct (list_find _ (reverse vals)) as [iv|]; [done|].
      destruct (decide (val_src v = k)) as [<-|Hne].
      * by rewrite lookup_insert_eq.
      * by rewrite lookup_insert_ne.
Qed.

(** X20: when every row converts, [load_london_edges] returns one edge
    per row, in the order of the rows, and a node record for exactly the ids
    that occur as an endpoint.  The record of an id carries the coordinates
    of the last row whose source it is; an id that is never a source
    carries those of the first row whose destination it is, which are the
    coordinates of that row's source. *)
Theorem load_london_edges_reads (rows : list (CsvRow Field)) (vals : list RowValues) :
  Forall2 (row_reads to_int to_float) rows vals →
  ∃ nodes,
    load_london_edges to_int to_float bng_to_wgs84 rows
      = Ok (nodes, row_edge <$> vals) ∧
    dom nodes = used_ids_of (row_edge <$> vals) ∧
    ∀ k, nodes !! k =
      match list_find (λ v, val_src v = k) (reverse vals) with
      | Some iv => Some (row_node bng_to_wgs84 k iv.2)
      | None => (λ iv : nat * RowValues, row_node bng_to_wgs84 k iv.2) <$>
                list_find (λ v, val_dst v = k) vals
      end.
Proof.
  intros Hreads.
  destruct (first_pass rows vals ∅ [] Hreads) as (nodes1 & Hrun1 & Hlookup1).
  destruct (second_pass rows vals nodes1 Hreads) as (nodes2 & Hrun2 & Hlookup2).
  { intros v Hv. apply elem_of_dom. rewrite Hlookup1, lookup_empty.
    apply fmap_is_Some. eapply list_find_elem_of; [exact Hv|]. by left. }
  assert (Hlookup : ∀ k, nodes2 !! k =
      match list_find (λ v, val_src v = k) (reverse vals) with
      | Some iv => Some (row_node bng_to_wgs84 k iv.2)
      | None => (λ iv : nat * RowValues, row_node bng_to_wgs84 k iv.2) <$>
                list_find (λ v, val_dst v = k) vals
      end).
  { intros k. rewrite Hlookup2.
    destruct (list_find (λ v, val_src v = k) (reverse vals)) as [iv|] eqn:Hfind;
      [done|].
    rewrite Hlookup1, lookup_empty. f_equal. apply list_find_same.
    intros v Hv. split; [|by right]. intros [Hsrc|Hdst]; [|done]. exfalso.
    apply list_find_None in Hfind. rewrite Forall_forall in Hfind.
    apply (Hfind v); [|done]. by apply elem_of_reverse. }
  exists nodes2. split_and!.
  - unfold load_london_edges. rewrite Hrun1, bind_Ok. cbn [fst snd].
    by rewrite Hrun2, bind_Ok.
  - apply set_eq. intros k. rewrite elem_of_dom, Hlookup, used_ids_elem. split.
    + destruct (list_find (λ v, val_src v = k) (reverse vals)) as [[i v]|] eqn:Hfind.
      * intros _. apply list_find_Some in Hfind as (Hv%list_elem_of_lookup_2 & Hk & _).
        exists (row_edge v). split; [|by left].
        apply list_elem_of_fmap. exists v. split; [done|]. by apply elem_of_reverse.
      * intros [n Hn]. apply fmap_Some in Hn as ([i v] & Hfind' & _).
        apply list_find_Some in Hfind' as (Hv%list_elem_of_lookup_2 & Hk & _).
        exists (row_edge v). split; [|by right].
        apply list_elem_of_fmap. by exists v.
    + intros (e & (v & -> & Hv)%list_elem_of_fmap & Hk). simpl in Hk.
      destruct (list_find (λ v, val_src v = k) (reverse vals)) as [iv|] eqn:Hfind;
        [by eexists|].
      apply fmap_is_Some. destruct Hk as [-> | ->].
      * exfalso. apply list_find_None in Hfind. rewrite Forall_forall in Hfind.
        apply (Hfind v); [by apply elem_of_reverse|done].
      * by eapply list_find_elem_of.
  - exact Hlookup.
Qed.

(** Conversely the loader returns only when every row converts. *)
Lemma first_pass_row_Ok (acc acc' : gmap Z NodeRecord * list EdgeRecord)
    (row : CsvRow Field) :
  first_pass_row to_int to_float bng_to_wgs84 acc row = Ok acc' →
  ∃ v, row_reads to_int to_float row v.
Proof.
  unfold first_pass_row.
  destruct (to_float (XCoord row)) as [x|] eqn:Hx; [|done]. rewrite bind_Ok.
  destruct (to_float (YCoord row)) as [y|] eqn:Hy; [|done]. rewrite bind_Ok.
  destruct (to_int (START_NODE row)) as [s|] eqn:Hs; [|done]. rewrite bind_Ok.
  destruct (to_int (END_NODE row)) as [d|] eqn:Hd; [|done]. rewrite bind_Ok.
  destruct (to_float (LENGTH row)) as [w|] eqn:Hw; [|done]. intros _.
  by exists (mkValues x y s d w).
Qed.

Lemma first_pass_Ok (rows : list (CsvRow Field))
    (acc acc' : gmap Z NodeRecord * list EdgeRecord) :
  for_each (first_pass_row to_int to_float bng_to_wgs84) rows acc = Ok acc' →
  ∃ vals, Forall2 (row_reads to_int to_float) rows vals.
Proof.
  revert acc. induction rows as [|row rows IH]; intros acc; [by exists []|].
  rewrite for_each_cons.
  destruct (first_pass_row to_int to_float bng_to_wgs84 acc row) as [acc1|] eqn:Hrow;
    [|done].
  rewrite bind_Ok. intros (vals & Hvals)%IH.
  apply first_pass_row_Ok in Hrow as [v Hv]. exists (v :: vals). by constructor.
Qed.

(** X21: [load_london_edges] returns exactly when the five columns of
    every row convert; the second reading of the rows never raises after
    the first one went through. *)
Theorem load_london_edges_returns (rows : list (CsvRow Field)) :
  (∃ nodes edges, load_london_edges to_int to_float bng_to_wgs84 rows
                    = Ok (nodes, edges)) ↔
  ∃ vals, Forall2 (row_reads to_int to_float) rows vals.
Proof.
  split.
  - intros (nodes & edges & Hrun). unfold load_london_edges in Hrun.
    destruct (for_each (first_pass_row to_int to_float bng_to_wgs84) rows (∅, []))
      as [acc|] eqn:Hfirst; [|done].
    by eapply first_pass_Ok.
  - intros (vals & Hvals).
    destruct (first_pass rows vals ∅ [] Hvals) as (nodes1 & Hrun1 & Hlookup1).
    destruct (second_pass rows vals nodes1 Hvals) as (nodes2 & Hrun2 & _).
    { intros v Hv. apply elem_of_dom. rewrite Hlookup1, lookup_empty.
      apply fmap_is_Some. eapply list_find_elem_of; [exact Hv|]. by left. }
    exists nodes2, (row_edge <$> vals).
    unfold load_london_edges. rewrite Hrun1, bind_Ok. cbn [fst snd].
    by rewrite Hrun2, bind_Ok.
Qed.
End london_loader.

Lemma load_london_edges_reads_witness :
  ∃ nodes,
    London.load_london_edges (λ f : Z, Ok f) (λ f : Z, Ok (inject_Z f))
        (λ x y : Q, (y, x)) [London.mkRow 1 2 3 4 5; London.mkRow 6 7 4 3 8]
      = Ok (nodes, row_edge <$> [mkValues 1 2 3 4 5; mkValues 6 7 4 3 8]) ∧
    dom nodes = London.used_ids_of
                  (row_edge <$> [mkValues 1 2 3 4 5; mkValues 6 7 4 3 8]) ∧
    ∀ k, nodes !! k =
      match list_find (λ v, val_src v = k)
              (reverse [mkValues 1 2 3 4 5; mkValues 6 7 4 3 8]) with
      | Some iv => Some (row_node (λ x y : Q, (y, x)) k iv.2)
      | None => (λ iv : nat * RowValues, row_node (λ x y : Q, (y, x)) k iv.2) <$>
                list_find (λ v, val_dst v = k)
                  [mkValues 1 2 3 4 5; mkValues 6 7 4 3 8]
      end.
Proof.
  apply (load_london_edges_reads (λ f : Z, Ok f) (λ f : Z, Ok (inject_Z f))
           (λ x y : Q, (y, x)) [London.mkRow 1 2 3 4 5; London.mkRow 6 7 4 3 8]
           [mkValues 1 2 3 4 5; mkValues 6 7 4 3 8]).
  repeat constructor.
Defined.
